(** * wololobot: the betting module (src/modules/bets.js)

    A shallow embedding of the option-string parser and of the bet manager,
    followed by the properties of the betting subsystem.

    - JavaScript strings are [string]s; every character stands for one
      UTF-16 code unit below 256.
    - Stored stakes are integers ([Z]); what JavaScript computes with them
      (the totals it receives from the store, the sum of the winning
      stakes, the pay-out formula) is in IEEE-754 binary64, with the
      operations of [SpecFloat].
    - The store (three tables reached through knex) and the ledger service
      ([bot.florins]) are explicit state: the tables are lists of rows, the
      ledger is the list of calls it has accepted.
    - An [async] function is a state-and-error computation: a thrown
      [Error] keeps every effect committed before it. *)

From Stdlib Require Import ZArith List String Ascii Bool Lia.
From Stdlib Require Import SpecFloat.
Import ListNotations.
Local Open Scope string_scope.
Local Open Scope list_scope.
Local Open Scope Z_scope.

(** ** JavaScript values used by the module *)
Module JS.

(** A binary64 number. *)
Definition number := spec_float.

Definition prec : Z := 53.
Definition emax : Z := 1024.

(** The number an integer becomes when it is held in a JavaScript
    variable (round to nearest, ties to even). *)
Definition of_Z (z : Z) : number := binary_normalize prec emax z 0 false.

(** The operators [/] and [*]. *)
Definition div (x y : number) : number := SFdiv prec emax x y.
Definition mul (x y : number) : number := SFmul prec emax x y.

(** The operator [+] on numbers. *)
Definition plus (x y : number) : number := SFadd prec emax x y.

(** An integer-valued result, [NaN] or an infinity: what [Math.ceil]
    returns and what the ledger receives as an amount. *)
Inductive jsnum :=
| JNum (z : Z)
| JNaN
| JInf (negative : bool).

(** [Math.ceil]: the least integer not below (-1)^s * m * 2^e. *)
Definition Math_ceil (x : number) : jsnum :=
  match x with
  | S754_zero _ => JNum 0
  | S754_infinity s => JInf s
  | S754_nan => JNaN
  | S754_finite s m e =>
      let n := if s then Z.neg m else Z.pos m in
      if 0 <=? e then JNum (n * 2 ^ e)
      else JNum (- ((- n) / 2 ^ (- e)))
  end.

(** Addition of two results of the kind above ([NaN] is absorbing,
    opposite infinities give [NaN]). *)
Definition add (x y : jsnum) : jsnum :=
  match x, y with
  | JNaN, _ | _, JNaN => JNaN
  | JInf a, JInf b => if Bool.eqb a b then JInf a else JNaN
  | JInf a, _ | _, JInf a => JInf a
  | JNum a, JNum b => JNum (a + b)
  end.

(** [x >= y] and [x < y] against an integer; both are false on [NaN]. *)
Definition geb (x : jsnum) (y : Z) : bool :=
  match x with
  | JNum a => y <=? a
  | JNaN => false
  | JInf negative => negb negative
  end.

Definition ltb (x : jsnum) (y : Z) : bool :=
  match x with
  | JNum a => a <? y
  | JNaN => false
  | JInf negative => negative
  end.

(** Character classes of the regular expression, on code units. *)
Definition code (c : ascii) : N := N_of_ascii c.

(** [[a-z]] *)
Definition is_lower (c : ascii) : bool :=
  ((97 <=? code c) && (code c <=? 122))%N.

(** Line terminators below 256: LF and CR. [.] matches anything else. *)
Definition is_line_terminator (c : ascii) : bool :=
  ((code c =? 10) || (code c =? 13))%N.

(** [\s], and what [trim] strips: TAB, LF, VT, FF, CR, SPACE, NBSP. *)
Definition is_space (c : ascii) : bool :=
  (((9 <=? code c) && (code c <=? 13)) || (code c =? 32) || (code c =? 160))%N.

(** [String.prototype.toLowerCase] on code units below 256. *)
Definition lower_char (c : ascii) : ascii :=
  let n := code c in
  if (((65 <=? n) && (n <=? 90))
      || ((192 <=? n) && (n <=? 222) && negb (n =? 215)))%N
  then ascii_of_N (n + 32) else c.

Fixpoint toLowerCase (s : string) : string :=
  match s with
  | EmptyString => EmptyString
  | String c s' => String (lower_char c) (toLowerCase s')
  end.

Fixpoint trimStart (s : string) : string :=
  match s with
  | EmptyString => EmptyString
  | String c s' => if is_space c then trimStart s' else s
  end.

(** Strips the trailing white space: a character is kept when something
    that is kept follows it, or when it is not white space. *)
Fixpoint trimEnd (s : string) : string :=
  match s with
  | EmptyString => EmptyString
  | String c s' =>
      match trimEnd s' with
      | EmptyString => if is_space c then EmptyString else String c EmptyString
      | t => String c t
      end
  end.

Definition trim (s : string) : string := trimEnd (trimStart s).

(** A plain object with string keys, in insertion order; assigning to a
    key that exists keeps its place. *)
Definition object := list (string * string).

Fixpoint set (o : object) (k v : string) : object :=
  match o with
  | [] => [(k, v)]
  | (k', v') :: o' =>
      if String.eqb k' k then (k, v) :: o' else (k', v') :: set o' k v
  end.

Fixpoint get (o : object) (k : string) : option string :=
  match o with
  | [] => None
  | (k', v') :: o' => if String.eqb k' k then Some v' else get o' k
  end.

(** [Object.keys] *)
Definition keys (o : object) : list string := map fst o.

End JS.

(** ** The option-string parser *)
Module Parser.
Import JS.

(** Length of the longest prefix of lower-case letters. *)
Fixpoint lower_run (s : string) : nat :=
  match s with
  | String c s' => if is_lower c then S (lower_run s') else O
  | EmptyString => O
  end.

Fixpoint take (n : nat) (s : string) : string :=
  match n, s with
  | S n', String c s' => String c (take n' s')
  | _, _ => EmptyString
  end.

Fixpoint drop (n : nat) (s : string) : string :=
  match n, s with
  | S n', String _ s' => drop n' s'
  | _, _ => s
  end.

(** [[a-z]+\)] at the head of [s]: the key and what follows the bracket.
    [[a-z]+] is greedy; giving letters back cannot help, since the
    character after a shorter run is a letter and not a bracket. *)
Definition match_key (s : string) : option (string * string) :=
  match lower_run s with
  | O => None
  | n =>
      match drop n s with
      | String ")" rest => Some (take n s, rest)
      | _ => None
      end
  end.

(** [\s[a-z]+\)] at the head of [s]: the number of characters matched. *)
Definition match_delim (s : string) : option nat :=
  match s with
  | String c s' =>
      if is_space c then
        match match_key s' with
        | Some (k, _) => Some (2 + String.length k)%nat
        | None => None
        end
      else None
  | EmptyString => None
  end.

(** [(.*?)(?:\s[a-z]+\)|$)] at the head of [s]: the lazy group takes one
    more character only when neither alternative matches where it stands;
    it cannot cross a line terminator. Returns the text of the group and
    the number of characters matched in all. *)
Fixpoint match_rest (s : string) : option (string * nat) :=
  match match_delim s with
  | Some d => Some (EmptyString, d)
  | None =>
      match s with
      | EmptyString => Some (EmptyString, O)
      | String c s' =>
          if is_line_terminator c then None
          else
            match match_rest s' with
            | Some (desc, n) => Some (String c desc, S n)
            | None => None
            end
      end
  end.

(** The array returned by [exec] and the [lastIndex] it leaves. *)
Record rxmatch := {
  m1 : string;      (* match[1] *)
  m2 : string;      (* match[2] *)
  lastIndex : Z     (* index after the whole match *)
}.

(** The whole expression at position [i], whose suffix is [s]. *)
Definition match_at (s : string) (i : nat) : option rxmatch :=
  match match_key s with
  | None => None
  | Some (k, rest) =>
      match match_rest rest with
      | None => None
      | Some (desc, n) =>
          Some {| m1 := k; m2 := desc;
                  lastIndex := Z.of_nat (i + String.length k + 1 + n) |}
      end
  end.

(** Leftmost match at or after position [i]. *)
Fixpoint search (s : string) (i : nat) : option rxmatch :=
  match match_at s i with
  | Some m => Some m
  | None =>
      match s with
      | EmptyString => None
      | String _ s' => search s' (S i)
      end
  end.

(** [rx.exec(str)] for the global expression, started at [rx.lastIndex];
    the start is [ToLength(lastIndex)], so a negative one counts as 0, and
    one beyond the end fails. *)
Definition exec (str : string) (lastIndex : Z) : option rxmatch :=
  let i := Z.to_nat (Z.max 0 lastIndex) in
  if (String.length str <? i)%nat then None
  else search (drop i str) i.

(** The [while] loop of [parse]; [None] when [fuel] iterations do not
    reach a failing [exec]. *)
Fixpoint parse_loop (fuel : nat) (str : string) (lastIndex : Z)
         (options : object) : option object :=
  match fuel with
  | O => None
  | S fuel' =>
      match exec str lastIndex with
      | None => Some options
      | Some m =>
          parse_loop fuel' str
            (Parser.lastIndex m - (Z.of_nat (String.length (m1 m)) + 2))
            (set options (toLowerCase (m1 m)) (trim (m2 m)))
      end
  end.

Definition parse (fuel : nat) (str : string) : option object :=
  parse_loop fuel str 0 [].

End Parser.

(** ** The store, the ledger and the bet manager *)
Module Bets.
Import JS.

(** The values of [bets.status]: 'open', 'closed' and 'ended'. *)
Inductive Status := Open | Closed | Ended.

Definition Status_eqb (a b : Status) : bool :=
  match a, b with
  | Open, Open | Closed, Closed | Ended, Ended => true
  | _, _ => false
  end.

Record Bet := { bet_id : Z; bet_status : Status }.

Record BetOption := {
  opt_id : Z;
  opt_betId : Z;
  opt_name : string;
  opt_description : string
}.

Record BetEntry := {
  ent_id : Z;
  ent_betId : Z;
  ent_optionId : Z;
  ent_user : string;
  ent_amount : Z
}.

(** A row of [getBetEntries]: the entry joined with the name of its
    option ([None] is the NULL of a left join without a partner). *)
Record EntryRow := {
  row_user : string;
  row_amount : Z;
  row_optionId : Z;
  row_option : option string
}.

(** An element of the list handed to [bot.florins.transactions]. *)
Record Transaction := {
  username : string;
  amount : jsnum;
  description : string
}.

(** The calls of the ledger service. *)
Inductive LedgerCall :=
| Unreserve (user tag : string)
| Reserve (user tag : string) (florins : Z)
| Transactions (batch : list Transaction)
| ClearReservations (tag : string).

(** The three tables and the calls the ledger has accepted, oldest
    first. *)
Record World := {
  bets : list Bet;
  betOptions : list BetOption;
  betEntries : list BetEntry;
  ledger : list LedgerCall
}.

(** The failures. The source throws [Error]s told apart by their
    messages; the names are those of the error taxonomy.
    - [InvalidState s]: "The current bet has been <s>." ([enter]) and
      "No bets are open right now." ([clear]);
    - [UnknownOption k]: "Betting option <k> does not exist.";
    - [InvalidAmount]: "You can't place a negative bet.";
    - [ConfigError]: "Bets require the florins module, ...";
    - [AlreadyOpen]: "Another bet is already open.";
    - [TypeError]: a property read on [undefined];
    - [DependencyError]: a call the ledger service rejects, or a statement
      the store refuses. *)
Inductive error :=
| InvalidState (s : Status)
| UnknownOption (optionName : string)
| InvalidAmount
| ConfigError
| AlreadyOpen
| TypeError
| DependencyError.

Inductive result (A : Type) :=
| Ok (a : A)
| Err (e : error).
Arguments Ok {A} a.
Arguments Err {A} e.

(** An asynchronous function: it runs on the world and leaves a world,
    also when it throws. *)
Definition M (A : Type) : Type := World -> result A * World.

Definition ret {A} (a : A) : M A := fun w => (Ok a, w).

Definition throw {A} (e : error) : M A := fun w => (Err e, w).

Definition bind {A B} (c : M A) (k : A -> M B) : M B :=
  fun w =>
    match c w with
    | (Ok a, w') => k a w'
    | (Err e, w') => (Err e, w')
    end.

Notation "x <- c ;; k" := (bind c (fun x => k))
  (at level 61, c at next level, right associativity).
Notation "c ;;; k" := (bind c (fun _ => k))
  (at level 61, right associativity).

(** Reads of the store. *)
Definition query {A} (f : World -> A) : M A := fun w => (Ok (f w), w).

(** Writes to the store. *)
Definition update (f : World -> World) : M unit := fun w => (Ok tt, f w).

Definition set_bets (f : list Bet -> list Bet) (w : World) : World :=
  {| bets := f (bets w); betOptions := betOptions w;
     betEntries := betEntries w; ledger := ledger w |}.

Definition set_betOptions (f : list BetOption -> list BetOption)
           (w : World) : World :=
  {| bets := bets w; betOptions := f (betOptions w);
     betEntries := betEntries w; ledger := ledger w |}.

Definition set_betEntries (f : list BetEntry -> list BetEntry)
           (w : World) : World :=
  {| bets := bets w; betOptions := betOptions w;
     betEntries := f (betEntries w); ledger := ledger w |}.

Definition set_ledger (f : list LedgerCall -> list LedgerCall)
           (w : World) : World :=
  {| bets := bets w; betOptions := betOptions w;
     betEntries := betEntries w; ledger := f (ledger w) |}.

(** The key the store generates for an inserted row: one more than the
    largest key of the table. *)
Definition next_id (ids : list Z) : Z := 1 + fold_right Z.max 0 ids.

(** [SUM(amount)]: NULL over no row. *)
Definition sql_sum (amounts : list Z) : option Z :=
  match amounts with
  | [] => None
  | _ => Some (fold_right Z.add 0 amounts)
  end.

(** The total as JavaScript receives it from the store: the integer sum
    becomes the nearest number, NULL becomes [null]. *)
Definition received (v : option Z) : option number := option_map of_Z v.

(** [const sum = (a, b) => a + b] *)
Definition sum (a b : number) : number := plus a b.

(** [v || 0] on a stake. *)
Definition or_zero (v : option Z) : Z :=
  match v with
  | Some z => z
  | None => 0
  end.

(** [v || 0] on a total: [null], a zero and [NaN] give 0. *)
Definition or_zero_number (v : option number) : number :=
  match v with
  | None | Some (S754_zero _) | Some S754_nan => of_Z 0
  | Some x => x
  end.

(** The number a possibly [null] total is in a product: [null] is [+0]. *)
Definition to_number (v : option number) : number :=
  match v with
  | Some x => x
  | None => of_Z 0
  end.

(** [Math.ceil(entry.amount / winningBets * total)] *)
Definition payout (stake : Z) (winningBets : number) (total : option number)
  : jsnum :=
  Math_ceil (mul (div (of_Z stake) winningBets) (to_number total)).

(** The text a template literal gives for a possibly NULL name. *)
Definition show_name (n : option string) : string :=
  match n with
  | Some s => s
  | None => "null"
  end.

Section Manager.

(** Whether the ledger service, having accepted the calls [history],
    completes the next call. *)
Variable ledger_accepts : list LedgerCall -> LedgerCall -> bool.

(** [betManager (bot, betId)] *)
Variable betId : Z.

(** [await bot.florins.<call>] *)
Definition call (c : LedgerCall) : M unit :=
  fun w =>
    if ledger_accepts (ledger w) c
    then (Ok tt, set_ledger (fun l => l ++ [c]) w)
    else (Err DependencyError, w).

Definition of_bet (e : BetEntry) : bool := ent_betId e =? betId.

Definition of_user (user : string) (e : BetEntry) : bool :=
  of_bet e && String.eqb (ent_user e) user.

Definition of_option (optionId : Z) (e : BetEntry) : bool :=
  of_bet e && (ent_optionId e =? optionId).

Definition join_option (w : World) (e : BetEntry) : EntryRow :=
  {| row_user := ent_user e;
     row_amount := ent_amount e;
     row_optionId := ent_optionId e;
     row_option :=
       option_map opt_name
         (find (fun o => opt_id o =? ent_optionId e) (betOptions w)) |}.

Definition getBetEntries : M (list EntryRow) :=
  query (fun w => map (join_option w) (filter of_bet (betEntries w))).

Definition getBetOption (name : string) : M (option BetOption) :=
  query (fun w =>
    find (fun o => (opt_betId o =? betId)
                   && String.eqb (opt_name o) (toLowerCase name))
         (betOptions w)).

Definition valid (option : string) : M bool :=
  o <- getBetOption option ;;
  ret (match o with Some _ => true | None => false end).

Definition getStatus : M Status :=
  bet <- query (fun w => find (fun b => bet_id b =? betId) (bets w)) ;;
  match bet with
  | Some b => ret (bet_status b)
  | None => throw TypeError
  end.

Definition pool : M (option number) :=
  query (fun w =>
    received (sql_sum (map ent_amount (filter of_bet (betEntries w))))).

Definition set_status (s : Status) (b : Bet) : Bet :=
  if bet_id b =? betId then {| bet_id := bet_id b; bet_status := s |}
  else b.

Definition close : M unit :=
  pool ;;;
  update (set_bets (map (set_status Closed))).

Definition closed : M bool :=
  s <- getStatus ;;
  ret (Status_eqb s Closed).

Definition enter (user optionName : string) (florins : Z)
  : M (option BetEntry) :=
  status <- getStatus ;;
  if negb (Status_eqb status Open) then throw (InvalidState status)
  else
    option <- getBetOption optionName ;;
    match option with
    | None => throw (UnknownOption optionName)
    | Some option =>
        if florins <? 0 then throw InvalidAmount
        else
          call (Unreserve user "bet") ;;;
          call (Reserve user "bet" florins) ;;;
          update (set_betEntries
                    (filter (fun e => negb (of_user (toLowerCase user) e)))) ;;;
          inserted <- query (fun w => next_id (map ent_id (betEntries w))) ;;
          update (set_betEntries (fun l =>
            l ++ [{| ent_id := inserted;
                     ent_betId := betId;
                     ent_optionId := opt_id option;
                     ent_user := toLowerCase user;
                     ent_amount := florins |}])) ;;;
          query (fun w =>
            find (fun e => ent_id e =? inserted) (betEntries w))
    end.

Definition debit (entry : EntryRow) : Transaction :=
  {| username := row_user entry;
     amount := JNum (- row_amount entry);
     description := ("bet on option " ++ show_name (row_option entry))%string |}.

Definition credit (winningOption : BetOption)
           (entry : string * jsnum) : Transaction :=
  {| username := fst entry;
     amount := snd entry;
     description :=
       ("bet payout from option " ++ opt_name winningOption)%string |}.

Definition end_ (optionName : string) : M (list BetEntry) :=
  winningOption <- getBetOption optionName ;;
  match winningOption with
  | None => throw (UnknownOption optionName)
  | Some winningOption =>
      update (set_bets (map (set_status Ended))) ;;;
      allEntries <- getBetEntries ;;
      winners <- query (fun w =>
        filter (of_option (opt_id winningOption)) (betEntries w)) ;;
      let winningBets :=
        fold_left sum (map (fun entry => of_Z (ent_amount entry)) winners)
                  (of_Z 0) in
      total <- pool ;;
      let payouts :=
        map (fun entry =>
               (ent_user entry,
                payout (ent_amount entry) winningBets total))
            winners in
      call (Transactions (map debit allEntries)) ;;;
      call (Transactions (map (credit winningOption) payouts)) ;;;
      call (ClearReservations "bet") ;;;
      ret winners
  end.

Definition clear (user : string) : M unit :=
  status <- getStatus ;;
  if negb (Status_eqb status Open) then throw (InvalidState status)
  else
    update (set_betEntries
              (filter (fun e => negb (of_user (toLowerCase user) e)))).

Definition getBetOptions : M (list BetOption) :=
  query (fun w => filter (fun o => opt_betId o =? betId) (betOptions w)).

Definition optionValue (optionName : string) : M number :=
  option <- getBetOption optionName ;;
  match option with
  | None => throw TypeError
  | Some option =>
      total <- query (fun w =>
        received
          (sql_sum (map ent_amount
                      (filter (of_option (opt_id option)) (betEntries w))))) ;;
      ret (or_zero_number total)
  end.

Definition entryValue (user : string) : M Z :=
  value <- query (fun w =>
    find (of_user (toLowerCase user)) (betEntries w)) ;;
  match value with
  | None => throw TypeError
  | Some value => ret (or_zero (Some (ent_amount value)))
  end.

End Manager.

(** [Object.keys(options).map(...)] as inserted: the rows for the keys
    [names], with consecutive primary keys from [id] on. The default of
    the description is never used: every name is a key of [options]. *)
Fixpoint optionRows (betId id : Z) (options : object) (names : list string)
  : list BetOption :=
  match names with
  | [] => []
  | name :: names' =>
      {| opt_id := id;
         opt_betId := betId;
         opt_name := name;
         opt_description :=
           match get options name with
           | Some d => d
           | None => EmptyString
           end |}
      :: optionRows betId (id + 1) options names'
  end.

(** [db ('betOptions').insert (optionRows)]: the store refuses an insert
    of no row. *)
Definition insertOptions (betId : Z) (options : object) (names : list string)
  : M unit :=
  match names with
  | [] => throw DependencyError
  | _ =>
      update (set_betOptions (fun l =>
        l ++ optionRows betId (next_id (map opt_id l)) options names))
  end.

(** [createBet (bot, options)]; the manager it returns is identified
    with its [betId]. *)
Definition createBet (options : object) : M Z :=
  betId <- query (fun w => next_id (map bet_id (bets w))) ;;
  update (set_bets (fun l =>
    l ++ [{| bet_id := betId; bet_status := Open |}])) ;;;
  insertOptions betId options (keys options) ;;;
  ret betId.

(** [restoreBet (bot)]: the value given to [bot.bet], if any. *)
Definition restoreBet : M (option Z) :=
  query (fun w =>
    option_map bet_id
      (find (fun b => negb (Status_eqb (bet_status b) Ended)) (bets w))).

(** The handler of [!bet open] up to the creation of the bet:
    [florins] tells whether [bot.florins] is there, [bet] is [bot.bet].
    [None] when [parse] does not come back within [fuel] iterations. *)
Definition bet_open (fuel : nat) (florins : bool) (bet : option Z)
           (trailing : string) : option (M Z) :=
  if negb florins then Some (throw ConfigError)
  else
    match bet with
    | Some _ => Some (throw AlreadyOpen)
    | None =>
        match Parser.parse fuel trailing with
        | Some options => Some (createBet options)
        | None => None
        end
    end.

End Bets.

(** ** Worlds reached by running the manager *)
Module Scenario.
Import JS Bets.

(** A ledger service that completes every call. *)
Definition responsive (history : list LedgerCall) (c : LedgerCall) : bool :=
  true.

(** A ledger service that is down. *)
Definition unreachable (history : list LedgerCall) (c : LedgerCall) : bool :=
  false.

Definition empty : World :=
  {| bets := []; betOptions := []; betEntries := []; ledger := [] |}.

(** The world a computation leaves. *)
Definition after {A} (c : M A) (w : World) : World := snd (c w).

Definition cats_or_dogs : object := [("a", "Cats"); ("b", "Dogs")].

(** The row of option a once stored. *)
Definition cats : BetOption :=
  {| opt_id := 1; opt_betId := 1; opt_name := "a";
     opt_description := "Cats" |}.

(** Bet 1 with the options a and b, nobody in. *)
Definition opened : World := after (createBet cats_or_dogs) empty.

(** alice -> a:100, bob -> b:200, carol -> a:50. *)
Definition three_entries : World :=
  after (enter responsive 1 "carol" "a" 50)
    (after (enter responsive 1 "bob" "b" 200)
       (after (enter responsive 1 "alice" "a" 100) opened)).

(** The same bet after [close ()]. *)
Definition three_entries_closed : World :=
  after (close 1) three_entries.

(** The same bet after [end ("a")]. *)
Definition three_entries_ended : World :=
  after (end_ responsive 1 "a") three_entries.

(** alice -> a:0, bob -> b:5: the only stake on option a is zero. *)
Definition zero_stake : World :=
  after (enter responsive 1 "bob" "b" 5)
    (after (enter responsive 1 "alice" "a" 0) opened).

(** bob -> b:5 alone: nobody is on option a. *)
Definition nobody_on_a : World :=
  after (enter responsive 1 "bob" "b" 5) opened.

(** Four stakes on a (29, 9, 9, 9) and one on b (112): every exact share
    of the pool of 168 is an integer. *)
Definition integer_shares : World :=
  after (enter responsive 1 "erin" "b" 112)
    (after (enter responsive 1 "dan" "a" 9)
       (after (enter responsive 1 "carol" "a" 9)
          (after (enter responsive 1 "bob" "a" 9)
             (after (enter responsive 1 "alice" "a" 29) opened)))).

(** What the store holds as the status of bet [betId]. *)
Definition status_of (betId : Z) (w : World) : option Status :=
  option_map bet_status (find (fun b => bet_id b =? betId) (bets w)).

(** No option of bet [betId] is called [name], in whatever case [name]
    is written. *)
Definition unknown (betId : Z) (name : string) (w : World) : Prop :=
  forall o, In o (betOptions w) -> opt_betId o = betId ->
            opt_name o <> toLowerCase name.

(** The stored entries of [user], spelled as stored, in bet [betId]. *)
Definition entries_of (betId : Z) (user : string) (w : World)
  : list BetEntry :=
  filter (of_user betId user) (betEntries w).

(** The ledger service completes every call. *)
Definition up (ledger_accepts : list LedgerCall -> LedgerCall -> bool)
  : Prop :=
  forall h c, ledger_accepts h c = true.

(** The sum of the amounts of the entries [l]. *)
Definition stakes (l : list BetEntry) : Z :=
  fold_right Z.add 0 (map ent_amount l).

(** The pay-out as the specification words it,
    [ceil(entry.amount / winningTotal * pool)]: the least integer that is
    not below the exact share [stake * pool / winningTotal], for a positive
    winning total. *)
Definition ceil_share (stake winningTotal pool : Z) : Z :=
  - ((- (stake * pool)) / winningTotal).

(** The number [x] is the integer [z]. *)
Definition is_integer (x : number) (z : Z) : Prop :=
  match x with
  | S754_zero _ => z = 0
  | S754_finite s m e =>
      let n := if s then Z.neg m else Z.pos m in
      if 0 <=? e then z = n * 2 ^ e else n = z * 2 ^ (- e)
  | _ => False
  end.

(** The batches of the [transactions] calls among the calls [l]. *)
Fixpoint batches (l : list LedgerCall) : list (list Transaction) :=
  match l with
  | [] => []
  | Transactions b :: l' => b :: batches l'
  | _ :: l' => batches l'
  end.

(** The sum of the amounts of a batch, taken exactly ([NaN] and the
    infinities as in [JS.add]). *)
Definition total (batch : list Transaction) : jsnum :=
  fold_left add (map amount batch) (JNum 0).

End Scenario.


(** ** Conditions on the store *)
Module Invariants.
Import JS Bets Scenario.

(** No stored stake is negative. *)
Definition stakes_nonneg (w : World) : Prop :=
  Forall (fun e => 0 <= ent_amount e) (betEntries w).

(** Every stored user name is in lower case. *)
Definition users_lower (w : World) : Prop :=
  Forall (fun e => toLowerCase (ent_user e) = ent_user e) (betEntries w).

(** No user has two entries in one bet. *)
Definition one_entry_each (w : World) : Prop :=
  forall b u, (List.length (filter (of_user b u) (betEntries w)) <= 1)%nat.

(** Every entry is on an option of its own bet. *)
Definition entries_on_options (w : World) : Prop :=
  Forall (fun e => exists o, In o (betOptions w)
                             /\ opt_id o = ent_optionId e
                             /\ opt_betId o = ent_betId e)
         (betEntries w).

(** The options have distinct primary keys and belong to stored bets. *)
Definition options_keyed (w : World) : Prop :=
  NoDup (map opt_id (betOptions w))
  /\ Forall (fun o => In (opt_betId o) (map bet_id (bets w))) (betOptions w).

(** The names of the options are in lower case, and distinct within a
    bet. *)
Definition options_named (w : World) : Prop :=
  Forall (fun o => toLowerCase (opt_name o) = opt_name o) (betOptions w)
  /\ forall b,
      NoDup (map opt_name (filter (fun o => opt_betId o =? b) (betOptions w))).

Definition sound (w : World) : Prop :=
  stakes_nonneg w /\ users_lower w /\ one_entry_each w
  /\ entries_on_options w /\ options_keyed w /\ options_named w.

(** The worlds the module can bring about from an empty store: a bet is
    created by [!bet open] from the options [parse] reads, and the
    functions of a manager that write are [enter], [clear], [close] and
    [end]. *)
Inductive reachable (ledger_accepts : list LedgerCall -> LedgerCall -> bool)
  : World -> Prop :=
| reach_empty : reachable ledger_accepts empty
| reach_open (fuel : nat) (trailing : string) (options : object) (w : World) :
    reachable ledger_accepts w ->
    Parser.parse fuel trailing = Some options ->
    reachable ledger_accepts (after (createBet options) w)
| reach_enter (betId : Z) (user optionName : string) (florins : Z)
              (w : World) :
    reachable ledger_accepts w ->
    reachable ledger_accepts
      (after (enter ledger_accepts betId user optionName florins) w)
| reach_clear (betId : Z) (user : string) (w : World) :
    reachable ledger_accepts w ->
    reachable ledger_accepts (after (clear betId user) w)
| reach_close (betId : Z) (w : World) :
    reachable ledger_accepts w ->
    reachable ledger_accepts (after (close betId) w)
| reach_end (betId : Z) (optionName : string) (w : World) :
    reachable ledger_accepts w ->
    reachable ledger_accepts (after (end_ ledger_accepts betId optionName) w).

(** A string that does not begin with white space. *)
Definition begins_tight (s : string) : Prop :=
  match s with
  | EmptyString => True
  | String c _ => is_space c = false
  end.

(** A string of lower-case letters. *)
Fixpoint all_lower (s : string) : bool :=
  match s with
  | EmptyString => true
  | String c s' => is_lower c && all_lower s'
  end.

End Invariants.

(** ** The chat commands of the betting module *)
Module Commands.
Import JS Bets.

(** What a handler sends; a text is given by its template and the
    values it interpolates.
    - [BetsClosed pool]: "Bets closed. A total of <pool> florins were
      entered. You can no longer change your bets!";
    - [NobodyWon]: "Bets ended! Nobody bet on the winning option. ...";
    - [Congratulations n option pool]: "Bets ended! Congratulations to
      the <n> people who bet on option <option>: <pool> florins were
      awarded.";
    - [Stopped]: "Bets closed and florins refunded.";
    - [BettingOptions l]: "Betting options: " and, per option, its name,
      its description and, once the bet is closed, its value. *)
Inductive Message :=
| BetsClosed (pool : option number)
| NobodyWon
| Congratulations (winners : nat) (optionName : string) (pool : option number)
| Stopped
| BettingOptions (shown : list (string * string * option number)).

(** How a handler fails: with an error of the manager (or one of the same
    message), or with one of its own.
    - [NotOpenNow]: "No bets are open right now.";
    - [NotCurrentlyOpen]: "No bets are currently open.";
    - [NotRunning]: "No bets are currently running.";
    - [NoOptionGiven]: "You must provide an option to bet on. ...";
    - [InvalidFlorins]: "You specified an invalid number of florins." *)
Inductive failure :=
| Thrown (e : error)
| NotOpenNow
| NotCurrentlyOpen
| NotRunning
| NoOptionGiven
| InvalidFlorins.

(** The bot as the handlers see it: [bot.bet] (a manager, known by its
    [betId]), the store and the ledger, and the messages sent so far. *)
Record Bot := {
  bet : option Z;
  store : World;
  sent : list Message
}.

(** A handler: [None] when it comes to its end, the failure otherwise. *)
Definition Handler : Type := Bot -> option failure * Bot.

Definition done : Handler := fun b => (None, b).

Definition fail (f : failure) : Handler := fun b => (Some f, b).

(** [await] of a manager function inside a handler. *)
Definition await {A} (c : M A) (k : A -> Handler) : Handler :=
  fun b =>
    match c (store b) with
    | (Ok a, w) => k a {| bet := bet b; store := w; sent := sent b |}
    | (Err e, w) =>
        (Some (Thrown e), {| bet := bet b; store := w; sent := sent b |})
    end.

(** [bot.send (...)] *)
Definition send (m : Message) : Handler :=
  fun b =>
    (None, {| bet := bet b; store := store b; sent := sent b ++ [m] |}).

(** [bot.bet = null] followed by the rest of the handler. *)
Definition detach (k : Handler) : Handler :=
  fun b => k {| bet := None; store := store b; sent := sent b |}.

(** [String (x)] of an argument that may be missing. *)
Definition String_of (x : option string) : string :=
  match x with
  | Some s => s
  | None => "undefined"
  end.

(** [isFinite (x)] *)
Definition isFinite (x : jsnum) : bool :=
  match x with
  | JNum _ => true
  | _ => false
  end.

(** The integer a finite number is (0 for the others, which no handler
    passes on). *)
Definition integer (x : jsnum) : Z :=
  match x with
  | JNum z => z
  | _ => 0
  end.

(** The words the handler of [!bet] leaves to the other handlers. *)
Definition subcommands : list string :=
  ["open"; "close"; "clear"; "end"; "stop"; "show"; "options"].

(** [list.includes (option)] *)
Definition includes (l : list string) (x : option string) : bool :=
  match x with
  | Some s => existsb (String.eqb s) l
  | None => false
  end.

(** [!option]: a missing or an empty argument. *)
Definition missing (x : option string) : bool :=
  match x with
  | Some EmptyString | None => true
  | Some _ => false
  end.

Section Handlers.

Variable ledger_accepts : list LedgerCall -> LedgerCall -> bool.

(** [!bet close] *)
Definition bet_close : Handler :=
  fun b =>
    match bet b with
    | None => fail NotCurrentlyOpen b
    | Some id =>
        await (closed id) (fun is_closed =>
          if is_closed then fail NotCurrentlyOpen
          else
            await (close id) (fun _ =>
            await (pool id) (fun total =>
            send (BetsClosed total)))) b
    end.

(** [!bet end <option>] *)
Definition bet_end (optionName : option string) : Handler :=
  fun b =>
    match bet b with
    | None => fail NotRunning b
    | Some id =>
        detach
          (await (pool id) (fun total =>
           await (end_ ledger_accepts id (String_of optionName)) (fun winners =>
             match winners with
             | [] => send NobodyWon
             | _ => send (Congratulations (List.length winners)
                                          (String_of optionName) total)
             end))) b
    end.

(** [!bet stop] *)
Definition bet_stop : Handler :=
  detach (send Stopped).

(** [!bet clear], sent by [user] *)
Definition bet_clear (user : string) : Handler :=
  fun b =>
    match bet b with
    | None => done b
    | Some id => await (clear id user) (fun _ => done) b
    end.

(** [showOption] of [!bet options] *)
Definition showOption (id : Z) (is_closed : bool) (opt : BetOption)
           (k : string * string * option number -> Handler) : Handler :=
  if negb is_closed then k (opt_name opt, opt_description opt, None)
  else
    await (optionValue id (opt_name opt)) (fun value =>
      k (opt_name opt, opt_description opt, Some value)).

Fixpoint showOptions (id : Z) (is_closed : bool) (opts : list BetOption)
         (k : list (string * string * option number) -> Handler) : Handler :=
  match opts with
  | [] => k []
  | opt :: opts' =>
      showOption id is_closed opt (fun shown =>
        showOptions id is_closed opts' (fun rest => k (shown :: rest)))
  end.

(** [!bet options] *)
Definition bet_options : Handler :=
  fun b =>
    match bet b with
    | None => done b
    | Some id =>
        await (closed id) (fun is_closed =>
        await (getBetOptions id) (fun opts =>
        showOptions id is_closed opts (fun shown =>
        send (BettingOptions shown)))) b
    end.

(** [!bet <option> <florins>], sent by [user]; [florins] is the value of
    [parseInt (florins, 10)]: an integer, [NaN] or an infinity. *)
Definition bet_enter (user : string) (optionName : option string)
           (florins : jsnum) : Handler :=
  fun b =>
    if includes subcommands optionName then done b
    else
      match bet b with
      | None => fail NotOpenNow b
      | Some id =>
          if missing optionName then fail NoOptionGiven b
          else
            await (valid id (String_of optionName)) (fun is_valid =>
              if negb is_valid
              then fail (Thrown (UnknownOption (String_of optionName)))
              else
                if (negb (isFinite florins) || ltb florins 0)%bool
                then fail InvalidFlorins
                else
                  await (enter ledger_accepts id user
                               (String_of optionName) (integer florins))
                        (fun _ => done)) b
      end.

End Handlers.

End Commands.

(** ** The quotes of the reddit module (src/modules/reddit.js) *)
Module Reddit.
Import JS.

(** The double quote. *)
Definition dquote : ascii := ascii_of_N 34.

(** [str.substr (-1)]: the last character, or nothing of an empty
    string. *)
Fixpoint last_char (s : string) : option ascii :=
  match s with
  | EmptyString => None
  | String c EmptyString => Some c
  | String _ s' => last_char s'
  end.

(** The marks after which no full stop is put. The list of the source has
    two more, an ellipsis and an interrobang, which are no code units below
    256. *)
Definition is_mark (c : ascii) : bool :=
  (Ascii.eqb c "." || Ascii.eqb c "," || Ascii.eqb c "!" || Ascii.eqb c "?")%bool.

(** [withFullStop]: [indexOf] of the empty string is 0, so that an empty
    string stays as it is. *)
Definition withFullStop (str : string) : string :=
  match last_char str with
  | None => str
  | Some c => if is_mark c then str else (str ++ ".")%string
  end.

(** The matches of the quote at the end, for the positions after the
    first one, taken out. *)
Fixpoint strip_end (s : string) : string :=
  match s with
  | EmptyString => EmptyString
  | String c EmptyString =>
      if Ascii.eqb c dquote then EmptyString else String c EmptyString
  | String c s' => String c (strip_end s')
  end.

(** [str.replace (rx, '')] for the global expression made of a quote at
    the start, two commas at the start, or a quote at the end: the leftmost
    match is taken out, and the search goes on behind it, where only the
    third alternative can match. *)
Definition replace_quotes (str : string) : string :=
  match str with
  | EmptyString => EmptyString
  | String c s' =>
      if Ascii.eqb c dquote then strip_end s'
      else
        match s' with
        | String c' s'' =>
            if (Ascii.eqb c "," && Ascii.eqb c' ",")%bool then strip_end s''
            else strip_end str
        | EmptyString => strip_end str
        end
  end.

Definition cleanTitle (title : string) : string :=
  withFullStop (replace_quotes (trim title)).

Definition enquote (str : string) : string :=
  String dquote (str ++ String dquote EmptyString)%string.

(** The part of a post that is read. *)
Record Post := { ups : Z; title : string }.

Section Quotes.

(** What the request of the attempt of a given number comes back with;
    [None] when the request fails or its body holds no post. *)
Variable responses : nat -> option Post.

Variable minKarma : Z.

(** [getNextQuote (sub, minKarma, attempts)] with [retries] calls left to
    make: five less [attempts]. *)
Fixpoint getNextQuote_from (retries attempts : nat) : option string :=
  match responses attempts with
  | None => None
  | Some post =>
      if ((attempts <? 5)%nat && (ups post <? minKarma))%bool
      then
        match retries with
        | S retries' => getNextQuote_from retries' (S attempts)
        | O => None
        end
      else Some (cleanTitle (title post))
  end.

Definition getNextQuote (attempts : nat) : option string :=
  getNextQuote_from (5 - attempts) attempts.

End Quotes.

End Reddit.

(** * Properties *)

(** ** The parser *)
Module ParserFacts.
Import JS Parser.

(** The documented example of [parse]. *)
Lemma parse_documented_example :
  parse 3 "a) option1 b) option2" = Some [("a", "option1"); ("b", "option2")].
Proof. reflexivity. Qed.

Lemma parse_team_example :
  parse 3 "a) Team Red b) Team Blue"
  = Some [("a", "Team Red"); ("b", "Team Blue")].
Proof. reflexivity. Qed.

(** A string without a key token at any position has no match. *)
Lemma search_no_key (s : string) :
  (forall n, match_key (drop n s) = None) ->
  forall i, search s i = None.
Proof.
  induction s as [|c s IH]; intros Hkey i.
  - reflexivity.
  - cbn [search]. unfold match_at.
    pose proof (Hkey O) as H0. cbn [drop] in H0. rewrite H0.
    apply IH. intro n. exact (Hkey (S n)).
Qed.

(** Without a key token the mapping is empty, whatever the fuel. *)
Lemma parse_no_key (fuel : nat) (s : string) :
  (forall n, match_key (drop n s) = None) ->
  parse (S fuel) s = Some [].
Proof.
  intro Hkey. unfold parse. cbn [parse_loop]. unfold exec.
  change (Z.to_nat (Z.max 0 0)) with O.
  cbn [Nat.ltb Nat.leb drop].
  rewrite search_no_key; [reflexivity | exact Hkey].
Qed.

(** On ["a)"] every [exec] that starts at or before 0 finds the same
    match again. *)
Lemma exec_lone_key (i : Z) :
  i <= 0 ->
  exec "a)" i = Some {| m1 := "a"; m2 := EmptyString; lastIndex := 2 |}.
Proof.
  intro Hi. unfold exec. rewrite Z.max_l by exact Hi. reflexivity.
Qed.

Lemma parse_loop_lone_key (fuel : nat) :
  forall (i : Z) (o : object), i <= 0 -> parse_loop fuel "a)" i o = None.
Proof.
  induction fuel as [|fuel IH]; intros i o Hi.
  - reflexivity.
  - cbn [parse_loop]. rewrite exec_lone_key by exact Hi.
    apply IH. cbn. lia.
Qed.

(** On ["a) b)"] the match of the key b ends the string; rewinding by
    the three characters of [b) ] and one more puts [lastIndex] back
    before that very match. *)
Lemma exec_second_key :
  exec "a) b)" 2 = Some {| m1 := "b"; m2 := EmptyString; lastIndex := 5 |}.
Proof. reflexivity. Qed.

Lemma parse_loop_second_key (fuel : nat) :
  forall o : object, parse_loop fuel "a) b)" 2 o = None.
Proof.
  induction fuel as [|fuel IH]; intro o.
  - reflexivity.
  - cbn [parse_loop]. rewrite exec_second_key.
    cbn [Parser.lastIndex m1 m2].
    change (5 - (Z.of_nat (String.length "b") + 2)) with 2.
    apply IH.
Qed.

(** C8 (defect). [parse] does not return a mapping for every input: on
    ["a) b)"] the loop rewinds [lastIndex] to before the match it has just
    found and never ends; and the rewinding by the length of the current
    key makes it read ["cd"] and ["d"] as keys of ["a) x bcd) y"], not
    ["bcd"]. *)
Theorem parse_rewind_defect :
  (forall fuel, parse fuel "a) b)" = None)
  /\ parse 4 "a) x bcd) y" = Some [("a", "x"); ("cd", "y"); ("d", "y")].
Proof.
  split.
  - intros [|fuel]; [reflexivity|].
    unfold parse. cbn [parse_loop].
    change (exec "a) b)" 0)
      with (Some {| m1 := "a"; m2 := EmptyString; lastIndex := 5 |}).
    cbn [Parser.lastIndex m1 m2].
    change (5 - (Z.of_nat (String.length "a") + 2)) with 2.
    apply parse_loop_second_key.
  - reflexivity.
Qed.

(** The same happens on a lone key, where the rewinding leaves the
    string: the next search starts at 0 again. *)
Lemma parse_lone_key (fuel : nat) : parse fuel "a)" = None.
Proof. apply parse_loop_lone_key. lia. Qed.

End ParserFacts.

(** ** The bet manager *)
Module ManagerFacts.
Import JS Bets Scenario.

Section Manager.

Variable ledger_accepts : list LedgerCall -> LedgerCall -> bool.
Variable betId : Z.

(** *** The store *)

Lemma fold_max_le (ids : list Z) (x : Z) :
  In x ids -> x <= fold_right Z.max 0 ids.
Proof.
  induction ids as [|y ids IH]; simpl; [tauto|].
  intros [->|H]; [lia | specialize (IH H); lia].
Qed.

(** A generated key is the key of no row of the table. *)
Lemma find_next_id (l : list BetEntry) :
  find (fun e => ent_id e =? next_id (map ent_id l)) l = None.
Proof.
  destruct (find _ l) as [e|] eqn:E; [|reflexivity].
  apply find_some in E as [Hin Heq].
  apply Z.eqb_eq in Heq.
  pose proof (fold_max_le (map ent_id l) (ent_id e) (in_map _ _ _ Hin)).
  unfold next_id in Heq. lia.
Qed.

Lemma find_app_none {A} (p : A -> bool) (l : list A) (x : A) :
  find p l = None -> find p (l ++ [x]) = if p x then Some x else None.
Proof.
  induction l as [|y l IH]; simpl; [reflexivity|].
  destruct (p y); [discriminate | exact IH].
Qed.

Lemma filter_negb {A} (p : A -> bool) (l : list A) :
  filter p (filter (fun x => negb (p x)) l) = [].
Proof.
  induction l as [|y l IH]; simpl; [reflexivity|].
  destruct (p y) eqn:E; simpl; [exact IH | now rewrite E].
Qed.

Lemma getStatus_status_of (w : World) (s : Status) :
  status_of betId w = Some s -> getStatus betId w = (Ok s, w).
Proof.
  unfold status_of, getStatus, bind, query.
  destruct (find _ (bets w)) as [b|]; simpl; [|discriminate].
  now intros [= ->].
Qed.

Lemma getStatus_inv (w w' : World) (s : Status) :
  getStatus betId w = (Ok s, w') -> status_of betId w = Some s /\ w' = w.
Proof.
  unfold status_of, getStatus, bind, query.
  destruct (find _ (bets w)) as [b|]; simpl; [|discriminate].
  now intros [= -> ->].
Qed.

Lemma getBetOption_unknown (name : string) (w : World) :
  unknown betId name w -> getBetOption betId name w = (Ok None, w).
Proof.
  intro Hu. unfold getBetOption, query.
  destruct (find _ (betOptions w)) as [o|] eqn:E; [|reflexivity].
  apply find_some in E as [Hin Hp].
  apply andb_prop in Hp as [Hb Hn].
  apply Z.eqb_eq in Hb. apply String.eqb_eq in Hn.
  now destruct (Hu o Hin Hb).
Qed.

(** *** [enter] *)

(** C3 (amended). The three guards of [enter] are taken in order:
    a bet that is not open gives [InvalidState]; an open bet and a key
    that names no option give [UnknownOption]; an open bet, a known
    option and a negative amount give [InvalidAmount]. In all three
    cases the world is left as it was: no call reaches the ledger and
    the entries are untouched. *)
Theorem enter_guards (user optionName : string) (florins : Z)
        (w : World) (s : Status) :
  status_of betId w = Some s ->
  (s <> Open ->
   enter ledger_accepts betId user optionName florins w = (Err (InvalidState s), w))
  /\ (s = Open -> unknown betId optionName w ->
      enter ledger_accepts betId user optionName florins w = (Err (UnknownOption optionName), w))
  /\ (s = Open ->
      forall o, getBetOption betId optionName w = (Ok (Some o), w) ->
      florins < 0 ->
      enter ledger_accepts betId user optionName florins w = (Err InvalidAmount, w)).
Proof.
  intro Hs. apply getStatus_status_of in Hs.
  repeat split.
  - intro Hno. unfold Bets.enter, bind at 1. rewrite Hs.
    destruct s; try reflexivity. now destruct Hno.
  - intros -> Hu. unfold Bets.enter, bind at 1. rewrite Hs.
    cbn [Status_eqb negb]. unfold bind at 1.
    now rewrite (getBetOption_unknown _ _ Hu).
  - intros -> o Ho Hneg. unfold Bets.enter, bind at 1. rewrite Hs.
    cbn [Status_eqb negb]. unfold bind at 1.
    rewrite Ho. apply Z.ltb_lt in Hneg. now rewrite Hneg.
Qed.

(** C4. After a call of [enter] that succeeds the user has exactly one
    entry in the bet, the entry returned, and it carries the option and
    the amount of this call, whatever the user had entered before. *)
Theorem enter_replaces (user optionName : string) (florins : Z)
        (w w' : World) (r : option BetEntry) :
  enter ledger_accepts betId user optionName florins w = (Ok r, w') ->
  exists e o,
    r = Some e
    /\ status_of betId w = Some Open
    /\ getBetOption betId optionName w = (Ok (Some o), w)
    /\ entries_of betId (toLowerCase user) w' = [e]
    /\ ent_optionId e = opt_id o
    /\ ent_amount e = florins.
Proof.
  unfold Bets.enter, bind at 1.
  destruct (getStatus betId w) as [[s|err] w1] eqn:Hs; [|discriminate].
  apply getStatus_inv in Hs as [Hs ->].
  destruct s; cbn [Status_eqb negb]; try discriminate.
  unfold bind at 1.
  unfold getBetOption at 1, query at 1.
  destruct (find _ (betOptions w)) as [o|] eqn:Ho; [|discriminate].
  destruct (florins <? 0); [discriminate|].
  unfold bind, call, update, query.
  destruct (ledger_accepts (ledger w) _); [|discriminate].
  destruct (ledger_accepts _ _); [|discriminate].
  cbn [set_ledger set_betEntries betEntries bets betOptions ledger].
  match goal with
  | |- context [find ?p (?l ++ [?x])] =>
      rewrite (find_app_none p l x) by apply find_next_id;
      set (e := x)
  end.
  cbn [ent_id]. rewrite Z.eqb_refl.
  intros [= <- <-].
  exists e, o. repeat split; try assumption.
  - unfold getBetOption, query. now rewrite Ho.
  - unfold entries_of.
    cbn [set_ledger set_betEntries betEntries].
    rewrite filter_app, filter_negb. cbn [filter app].
    unfold of_user, of_bet. cbn [e ent_betId ent_user].
    now rewrite Z.eqb_refl, String.eqb_refl.
Qed.


Lemma bets_enter (user optionName : string) (florins : Z) (w : World) :
  bets (after (enter ledger_accepts betId user optionName florins) w)
  = bets w.
Proof.
  cbv [after enter bind getStatus getBetOption query update call
       throw ret snd].
  destruct (find _ (bets w)) as [b|]; [|reflexivity].
  destruct (negb _); [reflexivity|].
  destruct (find _ (betOptions w)); [|reflexivity].
  destruct (florins <? 0); [reflexivity|].
  destruct (ledger_accepts (ledger w) _); [|reflexivity].
  destruct (ledger_accepts _ _); reflexivity.
Qed.

(** *** [close], [clear] and the status *)

Lemma bets_clear (user : string) (w : World) :
  bets (after (clear betId user) w) = bets w.
Proof.
  cbv [after clear bind getStatus query update throw ret snd].
  destruct (find _ (bets w)) as [b|]; [|reflexivity].
  destruct (negb _); reflexivity.
Qed.

Lemma find_set_status (s : Status) (l : list Bet) :
  option_map bet_status
    (find (fun b => bet_id b =? betId) (map (set_status betId s) l))
  = option_map (fun _ => s) (find (fun b => bet_id b =? betId) l).
Proof.
  induction l as [|b l IH]; [reflexivity|].
  cbn [map find].
  destruct (bet_id b =? betId) eqn:E.
  - replace (set_status betId s b)
      with {| bet_id := bet_id b; bet_status := s |}
      by (unfold set_status; now rewrite E).
    cbn [bet_id]. rewrite E. reflexivity.
  - replace (set_status betId s b) with b
      by (unfold set_status; now rewrite E).
    rewrite E. exact IH.
Qed.

Lemma status_of_close (w : World) (s : Status) :
  status_of betId w = Some s ->
  status_of betId (after (close betId) w) = Some Closed.
Proof.
  unfold status_of. cbv [after close bind pool query update snd].
  cbn [set_bets bets]. rewrite find_set_status.
  destruct (find _ (bets w)); [reflexivity | discriminate].
Qed.

Lemma bets_end (optionName : string) (w : World) :
  bets (after (end_ ledger_accepts betId optionName) w)
  = match fst (getBetOption betId optionName w) with
    | Ok (Some _) => map (set_status betId Ended) (bets w)
    | _ => bets w
    end.
Proof.
  cbv [after end_ bind getBetOption getBetEntries pool query update
       call throw ret snd fst].
  destruct (find _ (betOptions w)); [|reflexivity].
  cbn [set_bets ledger].
  destruct (ledger_accepts (ledger w) _); [|reflexivity].
  cbn [set_ledger ledger].
  destruct (ledger_accepts _ _); [|reflexivity].
  cbn [set_ledger ledger].
  destruct (ledger_accepts _ _); reflexivity.
Qed.

(** C5 (amended). [close] stores the status closed whatever the status
    was (so open becomes closed, and so does ended); [enter] and
    [clear] never change the status; [end] with a key that names an option
    stores the status ended whatever the status was, and [end] leaves an
    ended bet ended in any case. *)
Theorem status_moves (w : World) (s : Status) :
  status_of betId w = Some s ->
  status_of betId (after (close betId) w) = Some Closed
  /\ (forall user optionName florins,
         status_of betId
           (after (enter ledger_accepts betId user optionName florins) w)
         = Some s)
  /\ (forall user,
         status_of betId (after (clear betId user) w) = Some s)
  /\ (forall optionName o,
         getBetOption betId optionName w = (Ok (Some o), w) ->
         status_of betId (after (end_ ledger_accepts betId optionName) w)
         = Some Ended)
  /\ (s = Ended ->
      forall optionName,
        status_of betId (after (end_ ledger_accepts betId optionName) w)
        = Some Ended).
Proof.
  intro Hs.
  assert (Hended : status_of betId (set_bets (map (set_status betId Ended)) w)
                   = Some Ended).
  { unfold status_of in *. cbn [set_bets bets]. rewrite find_set_status.
    destruct (find _ (bets w)); [reflexivity | discriminate]. }
  split; [|split; [|split; [|split]]].
  - exact (status_of_close w s Hs).
  - intros. unfold status_of. rewrite bets_enter. exact Hs.
  - intros. unfold status_of. rewrite bets_clear. exact Hs.
  - intros optionName o Ho. unfold status_of. rewrite bets_end, Ho.
    exact Hended.
  - intros -> optionName. unfold status_of. rewrite bets_end.
    destruct (fst _) as [[o|]|]; try exact Hs. exact Hended.
Qed.

(** *** The aggregate queries *)

Lemma find_filter_nil {A} (p : A -> bool) (l : list A) :
  filter p l = [] -> find p l = None.
Proof.
  induction l as [|x l IH]; simpl; [reflexivity|].
  destruct (p x); [discriminate | exact IH].
Qed.

(** C6 (defect). [entryValue] of a user without an entry in the bet
    does not return 0: [first ()] gives [undefined] and reading its
    [amount] throws. *)
Theorem entryValue_without_entry (user : string) (w : World) :
  entries_of betId (toLowerCase user) w = [] ->
  entryValue betId user w = (Err TypeError, w).
Proof.
  intro Hnone. unfold entryValue, bind, query.
  now rewrite (find_filter_nil _ _ Hnone).
Qed.

(** [optionValue] of an option of the bet that nobody is on is 0. *)
Lemma optionValue_without_entries (optionName : string) (w : World)
      (o : BetOption) :
  getBetOption betId optionName w = (Ok (Some o), w) ->
  filter (of_option betId (opt_id o)) (betEntries w) = [] ->
  optionValue betId optionName w = (Ok (of_Z 0), w).
Proof.
  intros Ho Hnone. unfold optionValue, bind at 1. rewrite Ho.
  unfold bind, query, ret. now rewrite Hnone.
Qed.

(** [optionValue] of a key that names no option throws. *)
Lemma optionValue_unknown (optionName : string) (w : World) :
  unknown betId optionName w ->
  optionValue betId optionName w = (Err TypeError, w).
Proof.
  intro Hu. unfold optionValue, bind at 1.
  now rewrite (getBetOption_unknown _ _ Hu).
Qed.


(** *** [end] *)

(** With the ledger up and a key that names an option, [end] returns
    the entries on that option, stores the status ended and hands the
    ledger a batch of debits, a batch of credits and the release of
    the reservations, whatever the status was. *)
Lemma end_runs (optionName : string) (w : World) (o : BetOption) :
  up ledger_accepts ->
  getBetOption betId optionName w = (Ok (Some o), w) ->
  let all := filter (of_bet betId) (betEntries w) in
  let winners := filter (of_option betId (opt_id o)) (betEntries w) in
  let winningBets :=
    fold_left sum (map (fun e => of_Z (ent_amount e)) winners) (of_Z 0) in
  let payouts :=
    map (fun e => (ent_user e,
                   payout (ent_amount e) winningBets
                          (received (sql_sum (map ent_amount all))))) winners in
  end_ ledger_accepts betId optionName w
  = (Ok winners,
     {| bets := map (set_status betId Ended) (bets w);
        betOptions := betOptions w;
        betEntries := betEntries w;
        ledger := ledger w
                  ++ [Transactions (map debit (map (join_option w) all));
                      Transactions (map (credit o) payouts);
                      ClearReservations "bet"] |}).
Proof.
  intros Hup Ho. cbv zeta.
  unfold end_, bind at 1. rewrite Ho.
  cbv [bind getBetEntries pool query update call ret].
  rewrite !Hup.
  unfold set_ledger, set_bets, join_option.
  cbn [bets betOptions betEntries ledger].
  rewrite <- !app_assoc. reflexivity.
Qed.

Lemma or_zero_sql_sum (l : list Z) :
  or_zero (sql_sum l) = fold_right Z.add 0 l.
Proof. destruct l; reflexivity. Qed.

(** A total received from the store, [null] counted as 0, is the number
    nearest to the sum. *)
Lemma to_number_received (v : option Z) :
  to_number (received v) = of_Z (or_zero v).
Proof. destruct v; reflexivity. Qed.

Lemma total_debits (rows : list EntryRow) (a : Z) :
  fold_left add (map amount (map debit rows)) (JNum a)
  = JNum (a - fold_right Z.add 0 (map row_amount rows)).
Proof.
  revert a; induction rows as [|r rows IH]; intro a;
    cbn [map fold_left fold_right].
  - f_equal. lia.
  - cbn [debit amount add]. rewrite IH. f_equal. lia.
Qed.

(** The debits of [end] take from the users the stakes that [pool ()]
    counts: they add up to the sum of the stakes of the bet, negated, and
    [pool ()] receives the number nearest to that sum. *)
Lemma debits_total_pool (w : World) :
  let all := filter (of_bet betId) (betEntries w) in
  pool betId w = (Ok (received (sql_sum (map ent_amount all))), w)
  /\ to_number (received (sql_sum (map ent_amount all))) = of_Z (stakes all)
  /\ total (map debit (map (join_option w) all)) = JNum (- stakes all).
Proof.
  cbv zeta. split; [reflexivity|]. split.
  - now rewrite to_number_received, or_zero_sql_sum.
  - unfold total, stakes. rewrite total_debits.
    rewrite !map_map. cbn [join_option row_amount]. f_equal.
Qed.

(** When nobody is on the winning option, [end] has no winner and an
    empty batch of credits. *)
Lemma end_without_winner (optionName : string) (w : World)
      (o : BetOption) :
  up ledger_accepts ->
  getBetOption betId optionName w = (Ok (Some o), w) ->
  filter (of_option betId (opt_id o)) (betEntries w) = [] ->
  exists w',
    end_ ledger_accepts betId optionName w = (Ok [], w')
    /\ batches (ledger w')
       = batches (ledger w)
         ++ [map debit
               (map (join_option w)
                  (filter (of_bet betId) (betEntries w)));
             []].
Proof.
  intros Hup Ho Hnone.
  rewrite (end_runs optionName w o Hup Ho). rewrite Hnone.
  eexists. split; [reflexivity|].
  cbn [ledger map].
  induction (ledger w) as [|c l IH]; [reflexivity|].
  destruct c; cbn [app batches]; now rewrite IH.
Qed.

(** C10. [end] does not look at the status: on a bet that is already
    ended, with the ledger up and a key that names an option, it
    succeeds, and it hands the ledger a debit for every stored entry of
    the bet, and a batch of credits, once more. *)
Theorem end_ignores_status (optionName : string) (w : World)
        (o : BetOption) :
  up ledger_accepts ->
  status_of betId w = Some Ended ->
  getBetOption betId optionName w = (Ok (Some o), w) ->
  exists winners debits credits w',
    end_ ledger_accepts betId optionName w = (Ok winners, w')
    /\ ledger w' = ledger w ++ [Transactions debits;
                                Transactions credits;
                                ClearReservations "bet"]
    /\ map (fun t => (username t, amount t)) debits
       = map (fun e => (ent_user e, JNum (- ent_amount e)))
             (filter (of_bet betId) (betEntries w))
    /\ map username credits = map ent_user winners
    /\ status_of betId w' = Some Ended.
Proof.
  intros Hup Hs Ho.
  rewrite (end_runs optionName w o Hup Ho).
  do 4 eexists. split; [reflexivity|].
  cbn [ledger]. split; [reflexivity|].
  split; [|split].
  - rewrite !map_map. reflexivity.
  - rewrite !map_map. reflexivity.
  - unfold status_of in *. cbn [bets]. rewrite find_set_status.
    destruct (find _ (bets w)); [reflexivity | discriminate].
Qed.


End Manager.

(** *** [createBet] *)

Lemma optionRows_names (betId id : Z) (options : object)
      (names : list string) :
  map opt_name (optionRows betId id options names) = names.
Proof.
  revert id; induction names as [|n names IH]; intro id;
    cbn [optionRows map opt_name]; [reflexivity | now rewrite IH].
Qed.

Lemma optionRows_betId (betId id : Z) (options : object)
      (names : list string) :
  Forall (fun r => opt_betId r = betId)
         (optionRows betId id options names).
Proof.
  revert id; induction names as [|n names IH]; intro id;
    cbn [optionRows]; constructor; [reflexivity | apply IH].
Qed.

Lemma get_key (options : object) (k : string) :
  In k (keys options) -> exists d, get options k = Some d.
Proof.
  induction options as [|[k' v'] options IH]; cbn [keys map In fst get].
  - tauto.
  - intros [->|Hin].
    + rewrite String.eqb_refl. now exists v'.
    + destruct (String.eqb k' k); [now exists v' | now apply IH].
Qed.

Lemma optionRows_description (betId id : Z) (options : object)
      (names : list string) :
  incl names (keys options) ->
  Forall (fun r => get options (opt_name r) = Some (opt_description r))
         (optionRows betId id options names).
Proof.
  revert id; induction names as [|n names IH]; intros id Hincl;
    cbn [optionRows]; constructor.
  - cbn [opt_name opt_description].
    destruct (get_key options n (Hincl n (or_introl eq_refl))) as [d ->].
    reflexivity.
  - apply IH. intros k Hk. apply Hincl. now right.
Qed.

(** The store [createBet] leaves, also when it fails: the open bet and
    the rows of the options, none for a map without keys. *)
Lemma createBet_world (options : object) (w : World) :
  after (createBet options) w
  = {| bets := bets w ++ [{| bet_id := next_id (map bet_id (bets w));
                             bet_status := Open |}];
       betOptions :=
         betOptions w
         ++ optionRows (next_id (map bet_id (bets w)))
                       (next_id (map opt_id (betOptions w)))
                       options (keys options);
       betEntries := betEntries w;
       ledger := ledger w |}.
Proof.
  unfold after, createBet, bind, query, update, ret, insertOptions.
  destruct options as [|kv options]; cbn [keys map optionRows snd].
  - unfold throw, set_bets. cbn [snd bets betOptions betEntries ledger].
    now rewrite app_nil_r.
  - reflexivity.
Qed.

(** With a map that has a key [createBet] returns the key of the bet it
    has inserted. *)
Lemma createBet_returns (options : object) (w : World) :
  options <> [] ->
  createBet options w
  = (Ok (next_id (map bet_id (bets w))), after (createBet options) w).
Proof.
  intro Hkeys. unfold after, createBet, bind, query, update, ret,
    insertOptions.
  destruct options as [|kv options]; [contradiction|]. reflexivity.
Qed.

(** C9 (defect). [createBet] inserts the open bet first and the rows of
    the options after it. With a map that has a key it succeeds, with one
    option row per key, in the order of the keys, of the new bet, named by
    the key and described by the value of the key. With a map without keys
    it does not fail with a configuration error: the bet is inserted, then
    the store refuses the insert of no row, and the open bet stays behind
    without an option. [!bet open] with a text that holds no key goes that
    way, and [restoreBet] then picks the bet up. *)
Theorem createBet_without_guard (options : object) (w : World) :
  let id := next_id (map bet_id (bets w)) in
  (options <> [] ->
   exists rows,
     createBet options w
     = (Ok id,
        {| bets := bets w ++ [{| bet_id := id; bet_status := Open |}];
           betOptions := betOptions w ++ rows;
           betEntries := betEntries w;
           ledger := ledger w |})
     /\ map opt_name rows = keys options
     /\ Forall (fun r => opt_betId r = id
                         /\ get options (opt_name r)
                            = Some (opt_description r))
               rows)
  /\ createBet [] w
     = (Err DependencyError,
        {| bets := bets w ++ [{| bet_id := id; bet_status := Open |}];
           betOptions := betOptions w;
           betEntries := betEntries w;
           ledger := ledger w |})
  /\ option_map (fun c => c empty) (bet_open 1 true None "cats or dogs?")
     = Some (Err DependencyError,
             {| bets := [{| bet_id := 1; bet_status := Open |}];
                betOptions := []; betEntries := []; ledger := [] |})
  /\ fst (restoreBet (after (createBet []) empty)) = Ok (Some 1).
Proof.
  cbv zeta. split; [|repeat split; vm_compute; reflexivity].
  intro Hkeys. eexists. split; [|split].
  - rewrite (createBet_returns options w Hkeys), createBet_world.
    reflexivity.
  - apply optionRows_names.
  - apply Forall_and.
    + apply optionRows_betId.
    + apply optionRows_description. apply incl_refl.
Qed.


(** *** [end] on the scenarios *)

(** C2 (defect). The credits of [end] are not always
    [ceil(entry.amount / winningTotal * pool)]. With alice -> a:100,
    bob -> b:200 and carol -> a:50 they are: [end ("a")] returns the
    entries of alice and carol, the pool is 350 and the winning total 150,
    the debits are 350 in all and the credits 234 and 117, 351 in all.
    With the stakes 29, 9, 9, 9 on a and 112 on b the winning total is 56,
    the pool 168 and the shares 87, 27, 27, 27 are whole, but the binary64
    quotients and products come out above them and [end] credits 88, 28,
    28, 28. *)
Theorem end_credits_above_share :
  (let winners := filter (of_option 1 1) (betEntries three_entries) in
   let ledger' := ledger (after (end_ responsive 1 "a") three_entries) in
   fst (pool 1 three_entries) = Ok (Some (of_Z 350))
   /\ stakes (filter (of_bet 1) (betEntries three_entries)) = 350
   /\ stakes winners = 150
   /\ fst (end_ responsive 1 "a" three_entries)
      = Ok [{| ent_id := 1; ent_betId := 1; ent_optionId := 1;
               ent_user := "alice"; ent_amount := 100 |};
            {| ent_id := 3; ent_betId := 1; ent_optionId := 1;
               ent_user := "carol"; ent_amount := 50 |}]
   /\ batches ledger'
      = [[{| username := "alice"; amount := JNum (-100);
             description := "bet on option a" |};
          {| username := "bob"; amount := JNum (-200);
             description := "bet on option b" |};
          {| username := "carol"; amount := JNum (-50);
             description := "bet on option a" |}];
         [{| username := "alice"; amount := JNum 234;
             description := "bet payout from option a" |};
          {| username := "carol"; amount := JNum 117;
             description := "bet payout from option a" |}]]
   /\ map total (batches ledger') = [JNum (-350); JNum 351]
   /\ map (fun e => ceil_share (ent_amount e) 150 350) winners = [234; 117])
  /\ (let winners := filter (of_option 1 1) (betEntries integer_shares) in
      let credits :=
        nth 1 (batches (ledger (after (end_ responsive 1 "a") integer_shares)))
            [] in
      stakes (filter (of_bet 1) (betEntries integer_shares)) = 168
      /\ stakes winners = 56
      /\ map ent_amount winners = [29; 9; 9; 9]
      /\ map (fun e => ceil_share (ent_amount e) 56 168) winners
         = [87; 27; 27; 27]
      /\ map (fun t => (username t, amount t)) credits
         = [("alice", JNum 88); ("bob", JNum 28); ("carol", JNum 28);
            ("dan", JNum 28)]).
Proof. cbv zeta. repeat split; vm_compute; reflexivity. Qed.

(** C7 (defect). With alice -> a:0 and bob -> b:5 the stakes on option a
    sum to 0, and yet [end ("a")] hands the ledger a credit: 0 / 0 * 5 is
    not a number, and alice is credited that. *)
Theorem end_zero_stake_credit :
  stakes (filter (of_option 1 1) (betEntries zero_stake)) = 0
  /\ batches (ledger (after (end_ responsive 1 "a") zero_stake))
     = [[{| username := "alice"; amount := JNum 0;
            description := "bet on option a" |};
         {| username := "bob"; amount := JNum (-5);
            description := "bet on option b" |}];
        [{| username := "alice"; amount := JNaN;
            description := "bet payout from option a" |}]].
Proof. split; vm_compute; reflexivity. Qed.

(** C1 (defect). The credits of [end] leave the bounds in two ways.
    With alice -> a:0 and bob -> b:5 there is an entry on the winning
    option a, the pool is 5 and the one credit is not a number, so their
    sum is not at least the pool. With the stakes 29, 9, 9, 9 on a and 112
    on b the pool is 168 and the exact shares are 87, 27, 27, 27; the
    binary64 products come out just above them, so that the credits are
    88, 28, 28, 28 and their sum 172 is not below the pool plus the
    number of winning entries. *)
Theorem end_credits_out_of_bounds :
  (let credits :=
     nth 1 (batches (ledger (after (end_ responsive 1 "a") zero_stake))) [] in
   fst (pool 1 zero_stake) = Ok (Some (of_Z 5))
   /\ map ent_user (filter (of_option 1 1) (betEntries zero_stake))
      = ["alice"]
   /\ map (fun t => (username t, amount t)) credits = [("alice", JNaN)]
   /\ geb (total credits) 5 = false)
  /\ (let credits :=
        nth 1 (batches (ledger (after (end_ responsive 1 "a") integer_shares)))
            [] in
      fst (pool 1 integer_shares) = Ok (Some (of_Z 168))
      /\ map ent_amount (filter (of_option 1 1) (betEntries integer_shares))
         = [29; 9; 9; 9]
      /\ map amount credits = [JNum 88; JNum 28; JNum 28; JNum 28]
      /\ total credits = JNum 172
      /\ ltb (total credits) (168 + 4) = false).
Proof. cbv zeta. repeat split; vm_compute; reflexivity. Qed.

(** *** The guards on the scenarios *)

Lemma unknown_z_closed : unknown 1 "z" three_entries_closed.
Proof.
  intros o Hin _ Hname.
  cbv [three_entries_closed after close bind pool query update snd set_bets
         betOptions] in Hin.
  change (In o (betOptions three_entries)) in Hin.
  vm_compute in Hin.
  destruct Hin as [<-|[<-|[]]]; discriminate Hname.
Qed.

(** C3 (as worded, refuted). On the closed bet, [enter] with the key z,
    which names no option, and the amount -5 fails with the error of the
    status: neither with the one of the option nor with the one of the
    amount. *)
Lemma enter_closed_unknown_negative :
  status_of 1 three_entries_closed = Some Closed
  /\ unknown 1 "z" three_entries_closed
  /\ -5 < 0
  /\ enter responsive 1 "alice" "z" (-5) three_entries_closed
     = (Err (InvalidState Closed), three_entries_closed)
  /\ fst (enter responsive 1 "alice" "z" (-5) three_entries_closed)
     <> Err (UnknownOption "z")
  /\ fst (enter responsive 1 "alice" "z" (-5) three_entries_closed)
     <> Err InvalidAmount.
Proof.
  split; [reflexivity|]. split; [exact unknown_z_closed|].
  split; [lia|]. split; [vm_compute; reflexivity|].
  split; vm_compute; discriminate.
Qed.

(** C5 (as worded, refuted). [close] on the ended bet stores the status
    closed. *)
Lemma close_after_end :
  status_of 1 three_entries_ended = Some Ended
  /\ status_of 1 (after (close 1) three_entries_ended) = Some Closed.
Proof. split; vm_compute; reflexivity. Qed.


(** *** The general statements at work on the scenarios *)

Lemma responsive_up : up responsive.
Proof. intros h c. reflexivity. Defined.

Lemma unknown_z : unknown 1 "z" three_entries.
Proof.
  intros o Hin _ Hname. vm_compute in Hin.
  destruct Hin as [<-|[<-|[]]]; discriminate Hname.
Defined.

Lemma createBet_without_guard_witness :
  cats_or_dogs <> []
  /\ exists rows,
      createBet cats_or_dogs empty
      = (Ok 1,
         {| bets := [{| bet_id := 1; bet_status := Open |}];
            betOptions := rows; betEntries := []; ledger := [] |})
      /\ map opt_name rows = ["a"; "b"].
Proof.
  split; [discriminate|].
  destruct (proj1 (createBet_without_guard cats_or_dogs empty)
                  ltac:(discriminate)) as (rows & Hrun & Hnames & _).
  exists rows. split; [exact Hrun | exact Hnames].
Defined.

Lemma enter_guards_witness :
  (Closed <> Open
   /\ enter responsive 1 "dave" "a" 10 three_entries_closed
      = (Err (InvalidState Closed), three_entries_closed))
  /\ (unknown 1 "z" three_entries
      /\ enter responsive 1 "dave" "z" 10 three_entries
         = (Err (UnknownOption "z"), three_entries))
  /\ (-5 < 0
      /\ enter responsive 1 "dave" "a" (-5) three_entries
         = (Err InvalidAmount, three_entries)).
Proof.
  split; [|split]; split.
  - discriminate.
  - apply (proj1 (enter_guards responsive 1 "dave" "a" 10
                    three_entries_closed Closed eq_refl)).
    discriminate.
  - exact unknown_z.
  - apply (proj1 (proj2 (enter_guards responsive 1 "dave" "z" 10
                           three_entries Open eq_refl)));
      [reflexivity | exact unknown_z].
  - lia.
  - apply (proj2 (proj2 (enter_guards responsive 1 "dave" "a" (-5)
                           three_entries Open eq_refl))
             eq_refl cats);
      [reflexivity | lia].
Defined.

Lemma enter_replaces_witness :
  exists e,
    entries_of 1 "bob" (after (enter responsive 1 "Bob" "A" 70) three_entries)
    = [e]
    /\ ent_optionId e = 1
    /\ ent_amount e = 70.
Proof.
  destruct (enter_replaces responsive 1 "Bob" "A" 70 three_entries
              (after (enter responsive 1 "Bob" "A" 70) three_entries)
              (Some {| ent_id := 4; ent_betId := 1; ent_optionId := 1;
                       ent_user := "bob"; ent_amount := 70 |})
              eq_refl)
    as (e & o & _ & _ & Ho & Hone & Hopt & Hamount).
  exists e. split; [exact Hone|]. split; [|exact Hamount].
  rewrite Hopt. injection Ho as <-. reflexivity.
Defined.

Lemma status_moves_witness :
  status_of 1 three_entries_ended = Some Ended
  /\ status_of 1 (after (close 1) three_entries_ended) = Some Closed
  /\ status_of 1 (after (end_ responsive 1 "a") three_entries_ended)
     = Some Ended
  /\ status_of 1 (after (end_ responsive 1 "z") three_entries_ended)
     = Some Ended.
Proof.
  split; [reflexivity|].
  destruct (status_moves responsive 1 three_entries_ended Ended eq_refl)
    as (Hclose & _ & _ & Hend & Hterminal).
  split; [exact Hclose|].
  split; [exact (Hend "a" cats eq_refl) | exact (Hterminal eq_refl "z")].
Defined.

Lemma entryValue_without_entry_witness :
  entries_of 1 (toLowerCase "Dave") three_entries = []
  /\ entryValue 1 "Dave" three_entries = (Err TypeError, three_entries).
Proof.
  split; [reflexivity|].
  apply (entryValue_without_entry 1 "Dave" three_entries). reflexivity.
Defined.

Lemma end_ignores_status_witness :
  status_of 1 three_entries_ended = Some Ended
  /\ exists winners w',
      end_ responsive 1 "a" three_entries_ended = (Ok winners, w')
      /\ List.length (batches (ledger w'))
         = (2 + List.length (batches (ledger three_entries_ended)))%nat.
Proof.
  split; [reflexivity|].
  destruct (end_ignores_status responsive 1 "a" three_entries_ended cats
              responsive_up eq_refl eq_refl)
    as (winners & debits & credits & w' & Hend & Hledger & _).
  exists winners, w'. split; [exact Hend|].
  rewrite Hledger. reflexivity.
Defined.


(** When nobody is on the winning option the general statement gives an
    empty list of winners and an empty batch of credits. *)
Lemma end_nobody_on_a :
  exists w',
    end_ responsive 1 "a" nobody_on_a = (Ok [], w')
    /\ batches (ledger w')
       = [[{| username := "bob"; amount := JNum (-5);
              description := "bet on option b" |}];
          []].
Proof.
  destruct (end_without_winner responsive 1 "a" nobody_on_a cats
              responsive_up eq_refl eq_refl) as (w' & Hend & Hbatches).
  exists w'. split; [exact Hend | exact Hbatches].
Qed.

(** With the ledger down [enter] passes its guards and fails at the first
    call of the ledger: nothing is stored, the old entry of bob stays. *)
Lemma enter_ledger_down :
  enter unreachable 1 "bob" "a" 70 three_entries
  = (Err DependencyError, three_entries).
Proof. reflexivity. Qed.

End ManagerFacts.

(** * Further properties *)

(** ** What [parse] returns *)
Module ParserShape.
Import JS Parser Invariants.

Lemma lower_char_lower (c : ascii) : is_lower c = true -> lower_char c = c.
Proof.
  destruct c as [[] [] [] [] [] [] [] []]; intro H;
    solve [reflexivity | discriminate H].
Qed.

Lemma toLowerCase_all_lower (s : string) :
  all_lower s = true -> toLowerCase s = s.
Proof.
  induction s as [|c s IH]; cbn [all_lower toLowerCase]; [reflexivity|].
  intro H. apply andb_prop in H as [Hc Hs].
  now rewrite lower_char_lower, IH.
Qed.

Lemma take_lower_run (s : string) : all_lower (take (lower_run s) s) = true.
Proof.
  induction s as [|c s IH]; cbn [lower_run]; [reflexivity|].
  destruct (is_lower c) eqn:E; cbn [take all_lower]; [|reflexivity].
  now rewrite E, IH.
Qed.

(** A key matched by the expression is a non-empty run of lower-case
    letters. *)
Lemma match_key_shape (s k rest : string) :
  match_key s = Some (k, rest) -> all_lower k = true /\ k <> EmptyString.
Proof.
  unfold match_key.
  destruct (lower_run s) as [|n] eqn:En; [discriminate|].
  rewrite <- En.
  destruct (drop (lower_run s) s) as [|c r]; [discriminate|].
  destruct c as [[] [] [] [] [] [] [] []]; try discriminate.
  intros [= <- <-]. split.
  - apply take_lower_run.
  - rewrite En. destruct s as [|c s]; [discriminate En|]. discriminate.
Qed.

Lemma search_shape (s : string) :
  forall i m, search s i = Some m ->
              all_lower (m1 m) = true /\ m1 m <> EmptyString.
Proof.
  induction s as [|c s IH]; intros i m; cbn [search]; unfold match_at.
  - destruct (match_key EmptyString) as [[k rest]|] eqn:Ek; [|discriminate].
    discriminate Ek.
  - destruct (match_key (String c s)) as [[k rest]|] eqn:Ek.
    + destruct (match_rest rest) as [[desc n]|].
      * intros [= <-]. cbn [m1]. exact (match_key_shape _ _ _ Ek).
      * apply IH.
    + apply IH.
Qed.

Lemma exec_shape (str : string) (i : Z) (m : rxmatch) :
  exec str i = Some m -> all_lower (m1 m) = true /\ m1 m <> EmptyString.
Proof.
  unfold exec. destruct (_ <? _)%nat; [discriminate|]. apply search_shape.
Qed.

(** *** [trim] *)

Lemma trimEnd_cons (c : ascii) (s : string) :
  trimEnd (String c s)
  = match trimEnd s with
    | EmptyString => if is_space c then EmptyString else String c EmptyString
    | String d t => String c (String d t)
    end.
Proof. reflexivity. Qed.

Lemma trimEnd_idempotent (s : string) : trimEnd (trimEnd s) = trimEnd s.
Proof.
  induction s as [|c s IH]; [reflexivity|].
  rewrite trimEnd_cons. destruct (trimEnd s) as [|d t] eqn:E.
  - destruct (is_space c) eqn:Ec; [reflexivity|].
    rewrite trimEnd_cons. cbn [trimEnd]. now rewrite Ec.
  - rewrite trimEnd_cons, IH. reflexivity.
Qed.

Lemma trimStart_tight (s : string) : begins_tight (trimStart s).
Proof.
  induction s as [|c s IH]; cbn [trimStart]; [exact I|].
  destruct (is_space c) eqn:E; [exact IH | exact E].
Qed.

Lemma tight_trimStart (s : string) : begins_tight s -> trimStart s = s.
Proof.
  destruct s as [|c s]; cbn [begins_tight trimStart]; [reflexivity|].
  now intros ->.
Qed.

Lemma trimEnd_tight (s : string) : begins_tight s -> begins_tight (trimEnd s).
Proof.
  destruct s as [|c s]; cbn [begins_tight trimEnd]; [trivial|].
  intro Hc. destruct (trimEnd s); [now rewrite Hc | exact Hc].
Qed.

Lemma trim_idempotent (s : string) : trim (trim s) = trim s.
Proof.
  unfold trim.
  rewrite (tight_trimStart (trimEnd (trimStart s))).
  - apply trimEnd_idempotent.
  - apply trimEnd_tight, trimStart_tight.
Qed.

(** *** The object that is filled *)

Lemma keys_set_in (o : object) (k v x : string) :
  In x (keys (set o k v)) -> x = k \/ In x (keys o).
Proof.
  induction o as [|[k' v'] o IH]; cbn [set keys map fst In].
  - intros [<-|[]]. now left.
  - destruct (String.eqb k' k) eqn:E; cbn [map fst In].
    + apply String.eqb_eq in E as ->. intros [<-|H]; [now left | now right; right].
    + intros [<-|H]; [now right; left|].
      destruct (IH H) as [->|H']; [now left | now right; right].
Qed.

Lemma keys_set_nodup (o : object) (k v : string) :
  NoDup (keys o) -> NoDup (keys (set o k v)).
Proof.
  induction o as [|[k' v'] o IH]; cbn [set keys map fst]; intro Hnd.
  - constructor; [intros [] | constructor].
  - inversion Hnd as [|? ? Hnotin Hnd']; subst.
    destruct (String.eqb k' k) eqn:E; cbn [map fst].
    + apply String.eqb_eq in E as ->. now constructor.
    + constructor; [|now apply IH].
      intro Hin. apply keys_set_in in Hin as [->|Hin]; [|now apply Hnotin].
      now rewrite String.eqb_refl in E.
Qed.

Lemma set_forall (P : string * string -> Prop) (o : object) (k v : string) :
  Forall P o -> P (k, v) -> Forall P (set o k v).
Proof.
  intros Ho Hkv. induction Ho as [|[k' v'] o Hhd Htl IH]; cbn [set].
  - now constructor.
  - destruct (String.eqb k' k); constructor; assumption.
Qed.

Lemma parse_wellformed (fuel : nat) (str : string) (o : object) :
  parse fuel str = Some o ->
  NoDup (keys o)
  /\ Forall (fun kv => all_lower (fst kv) = true
                       /\ fst kv <> EmptyString
                       /\ trim (snd kv) = snd kv) o.
Proof.
  unfold parse.
  assert (Hloop : forall fuel i acc,
             NoDup (keys acc)
             /\ Forall (fun kv => all_lower (fst kv) = true
                                  /\ fst kv <> EmptyString
                                  /\ trim (snd kv) = snd kv) acc ->
             parse_loop fuel str i acc = Some o ->
             NoDup (keys o)
             /\ Forall (fun kv => all_lower (fst kv) = true
                                  /\ fst kv <> EmptyString
                                  /\ trim (snd kv) = snd kv) o).
  { clear fuel. induction fuel as [|fuel IH]; intros i acc [Hnd Hall];
      cbn [parse_loop]; [discriminate|].
    destruct (exec str i) as [m|] eqn:Em.
    - apply IH. destruct (exec_shape str i m Em) as [Hlow Hne].
      rewrite (toLowerCase_all_lower _ Hlow). split.
      + now apply keys_set_nodup.
      + apply set_forall; [exact Hall|]. cbn [fst snd].
        repeat split; [exact Hlow | exact Hne | apply trim_idempotent].
    - intros [= <-]. now split. }
  apply Hloop. split; constructor.
Qed.

(** X1. Whatever [parse] returns is a well-formed option map: its keys
    are distinct, each a non-empty string of the letters a to z, and its
    descriptions have no white space at either end. *)
Theorem parse_shape (fuel : nat) (str : string) (o : object) :
  parse fuel str = Some o ->
  NoDup (keys o)
  /\ Forall (fun kv => all_lower (fst kv) = true
                       /\ fst kv <> EmptyString
                       /\ trim (snd kv) = snd kv) o.
Proof. apply parse_wellformed. Qed.

Lemma parse_shape_witness :
  NoDup (keys [("b", "Dogs, (big) ones"); ("c", "it's a tie")]).
Proof.
  exact (proj1 (parse_shape 5 "A) Cats b)   Dogs, (big) ones c) it's a tie "
                  [("b", "Dogs, (big) ones"); ("c", "it's a tie")] eq_refl)).
Defined.

End ParserShape.

(** ** The quotes *)
Module RedditFacts.
Import JS Reddit.

Lemma last_char_app (s : string) (c : ascii) :
  last_char (s ++ String c EmptyString) = Some c.
Proof.
  induction s as [|d s IH]; [reflexivity|].
  cbn [append last_char]. rewrite IH.
  now destruct (s ++ String c EmptyString)%string.
Qed.

Lemma last_char_none (s : string) : last_char s = None -> s = EmptyString.
Proof.
  induction s as [|c s IH]; [reflexivity|].
  cbn [last_char]. destruct s as [|d s]; [discriminate|].
  intro H. now specialize (IH H).
Qed.

Lemma withFullStop_idempotent (str : string) :
  withFullStop (withFullStop str) = withFullStop str.
Proof.
  unfold withFullStop at 2.
  destruct (last_char str) as [c|] eqn:E.
  - destruct (is_mark c) eqn:Ec.
    + reflexivity.
    + unfold withFullStop at 1. rewrite last_char_app.
      unfold withFullStop. rewrite E, Ec. reflexivity.
  - reflexivity.
Qed.

(** X2. [withFullStop] leaves the empty string empty; any other string
    comes back ending with a full stop, a comma, an exclamation mark or a
    question mark, the one it had or an added full stop; and doing it twice
    changes nothing more. *)
Theorem withFullStop_ends (str : string) :
  (str = EmptyString -> withFullStop str = EmptyString)
  /\ (str <> EmptyString ->
      exists c, last_char (withFullStop str) = Some c /\ is_mark c = true)
  /\ withFullStop (withFullStop str) = withFullStop str.
Proof.
  split; [|split].
  - now intros ->.
  - intro Hne. unfold withFullStop.
    destruct (last_char str) as [c|] eqn:E.
    + destruct (is_mark c) eqn:Ec.
      * now exists c.
      * exists "."%char. now rewrite last_char_app.
    + now apply last_char_none in E.
  - apply withFullStop_idempotent.
Qed.

Lemma withFullStop_ends_witness :
  exists c, last_char (withFullStop "Wololo") = Some c /\ is_mark c = true.
Proof.
  apply (proj1 (proj2 (withFullStop_ends "Wololo"))). discriminate.
Defined.

Lemma trimEnd_app (s : string) (c : ascii) :
  is_space c = false ->
  trimEnd (s ++ String c EmptyString) = (s ++ String c EmptyString)%string.
Proof.
  intro Hc. induction s as [|d s IH].
  - cbn [append trimEnd]. now rewrite Hc.
  - cbn [append]. rewrite ParserShape.trimEnd_cons, IH.
    destruct (s ++ String c EmptyString)%string eqn:E;
      [destruct s; discriminate E | reflexivity].
Qed.

Lemma strip_end_quoted (s : string) :
  strip_end (s ++ String dquote EmptyString) = s.
Proof.
  induction s as [|c s IH]; [reflexivity|].
  cbn [append].
  destruct (s ++ String dquote EmptyString)%string eqn:E;
    [destruct s; discriminate E|].
  cbn [strip_end]. cbn [strip_end] in IH. now rewrite IH.
Qed.

(** X3. Cleaning a title takes off exactly the quotes that [enquote] puts
    on: the cleaned form of a quoted string is the string itself, with its
    full stop; so a title that is cleaned, quoted for the chat and cleaned
    again is the cleaned title. *)
Theorem cleanTitle_enquote (str : string) :
  cleanTitle (enquote str) = withFullStop str
  /\ cleanTitle (enquote (cleanTitle str)) = cleanTitle str.
Proof.
  assert (H : forall s, cleanTitle (enquote s) = withFullStop s).
  { intro s. unfold cleanTitle, enquote, trim.
    cbn [trimStart]. change (is_space dquote) with false. cbv iota.
    change (String dquote (s ++ String dquote EmptyString))
      with (String dquote s ++ String dquote EmptyString)%string.
    rewrite trimEnd_app by reflexivity.
    cbn [append replace_quotes]. rewrite Ascii.eqb_refl.
    now rewrite strip_end_quoted. }
  split; [apply H|].
  rewrite H. unfold cleanTitle. apply withFullStop_idempotent.
Qed.

Section Quotes.

Variable responses : nat -> option Post.
Variable minKarma : Z.

Lemma getNextQuote_from_skips (k : nat) :
  forall retries attempts,
    (attempts + k <= 5)%nat ->
    (5 - attempts <= retries)%nat ->
    (forall j, (attempts <= j < attempts + k)%nat ->
               exists p, responses j = Some p /\ ups p < minKarma) ->
    getNextQuote_from responses minKarma retries attempts
    = getNextQuote_from responses minKarma (retries - k) (attempts + k).
Proof.
  induction k as [|k IH]; intros retries attempts Hle Hret Hbad.
  - now rewrite Nat.sub_0_r, Nat.add_0_r.
  - destruct retries as [|retries]; [lia|].
    destruct (Hbad attempts ltac:(lia)) as (p & Hp & Hups).
    cbn [getNextQuote_from]. rewrite Hp.
    replace (attempts <? 5)%nat with true
      by (symmetry; apply Nat.ltb_lt; lia).
    replace (ups p <? minKarma) with true
      by (symmetry; apply Z.ltb_lt; lia).
    cbn [andb]. rewrite IH; [| lia | lia |].
    + f_equal; lia.
    + intros j Hj. apply Hbad. lia.
Qed.

(** X4. [getNextQuote] asks again while the post has too little karma, up
    to five times: it returns the cleaned title of the first post with
    enough karma among the first five, and of the sixth whatever its
    karma; it fails when a request before that fails. *)
Theorem getNextQuote_accepts (k : nat) :
  (k <= 5)%nat ->
  (forall j, (j < k)%nat ->
             exists p, responses j = Some p /\ ups p < minKarma) ->
  (forall post, responses k = Some post ->
                k = 5%nat \/ minKarma <= ups post ->
                getNextQuote responses minKarma 0
                = Some (cleanTitle (title post)))
  /\ (responses k = None -> getNextQuote responses minKarma 0 = None).
Proof.
  intros Hk Hbad. unfold getNextQuote.
  rewrite (getNextQuote_from_skips k) by
      (try lia; intros j Hj; apply Hbad; lia).
  rewrite Nat.add_0_l. split.
  - intros post Hpost Hgood.
    destruct (5 - 0 - k)%nat; cbn [getNextQuote_from]; rewrite Hpost.
    + replace ((k <? 5)%nat && (ups post <? minKarma))%bool with false;
        [reflexivity|].
      symmetry. apply andb_false_iff. destruct Hgood as [->|Hups].
      * now left.
      * right. apply Z.ltb_ge. lia.
    + replace ((k <? 5)%nat && (ups post <? minKarma))%bool with false;
        [reflexivity|].
      symmetry. apply andb_false_iff. destruct Hgood as [->|Hups].
      * now left.
      * right. apply Z.ltb_ge. lia.
  - intros Hnone.
    destruct (5 - 0 - k)%nat; cbn [getNextQuote_from]; now rewrite Hnone.
Qed.

End Quotes.

Lemma getNextQuote_accepts_witness :
  getNextQuote
    (fun j => Some {| ups := Z.of_nat j - 1;
                      title := "  ,,To the barricades  " |}) 1 0
  = Some ("To the barricades.").
Proof.
  refine (proj1 (getNextQuote_accepts
                   (fun j => Some {| ups := Z.of_nat j - 1;
                                     title := "  ,,To the barricades  " |})
                   1 2 _ _)
                {| ups := 1; title := "  ,,To the barricades  " |}
                eq_refl _).
  - lia.
  - intros j Hj. eexists. split; [reflexivity|]. cbn [ups]. lia.
  - right. cbn [ups]. lia.
Defined.

End RedditFacts.

(** ** More on the bet manager *)
Module ManagerMore.
Import JS Bets Scenario Invariants ManagerFacts.

Section Manager.

Variable ledger_accepts : list LedgerCall -> LedgerCall -> bool.
Variable betId : Z.

(** *** What [enter] does to the world *)

(** The entry [enter] inserts. *)
Lemma enter_ok_inv (user optionName : string) (florins : Z)
      (w w' : World) (r : option BetEntry) :
  enter ledger_accepts betId user optionName florins w = (Ok r, w') ->
  exists o e,
    status_of betId w = Some Open
    /\ find (fun o => (opt_betId o =? betId)
                      && String.eqb (opt_name o) (toLowerCase optionName))
            (betOptions w) = Some o
    /\ 0 <= florins
    /\ ent_betId e = betId
    /\ ent_optionId e = opt_id o
    /\ ent_user e = toLowerCase user
    /\ ent_amount e = florins
    /\ r = Some e
    /\ w' = {| bets := bets w;
               betOptions := betOptions w;
               betEntries :=
                 filter (fun e => negb (of_user betId (toLowerCase user) e))
                        (betEntries w) ++ [e];
               ledger := ledger w ++ [Unreserve user "bet";
                                      Reserve user "bet" florins] |}.
Proof.
  unfold enter, bind at 1.
  destruct (getStatus betId w) as [[s|err] w1] eqn:Hs; [|discriminate].
  apply getStatus_inv in Hs as [Hs ->].
  destruct s; cbn [Status_eqb negb]; try discriminate.
  unfold bind at 1.
  unfold getBetOption at 1, query at 1.
  destruct (find _ (betOptions w)) as [o|] eqn:Ho; [|discriminate].
  destruct (florins <? 0) eqn:Hneg; [discriminate|].
  apply Z.ltb_ge in Hneg.
  unfold bind, call, update, query.
  destruct (ledger_accepts (ledger w) _); [|discriminate].
  destruct (ledger_accepts _ _); [|discriminate].
  unfold set_ledger, set_betEntries.
  cbn [betEntries bets betOptions ledger].
  match goal with
  | |- context [find ?p (?l ++ [?x])] =>
      rewrite (find_app_none p l x) by apply find_next_id;
      set (e := x)
  end.
  cbn [ent_id]. rewrite Z.eqb_refl.
  intros [= <- <-].
  exists o, e. rewrite <- app_assoc. repeat split; assumption.
Qed.

(** A call of [enter] that fails has stored nothing. *)
Lemma enter_err_store (user optionName : string) (florins : Z)
      (w w' : World) (err : error) :
  enter ledger_accepts betId user optionName florins w = (Err err, w') ->
  bets w' = bets w /\ betOptions w' = betOptions w
  /\ betEntries w' = betEntries w.
Proof.
  cbv [enter bind getStatus getBetOption query update call throw ret].
  destruct (find _ (bets w)) as [b|]; [|now intros [= _ <-]].
  destruct (negb _); [now intros [= _ <-]|].
  destruct (find _ (betOptions w)); [|now intros [= _ <-]].
  destruct (florins <? 0); [now intros [= _ <-]|].
  destruct (ledger_accepts (ledger w) _); [|now intros [= _ <-]].
  cbn [set_ledger ledger].
  destruct (ledger_accepts _ _); [|now intros [= _ <-]].
  discriminate.
Qed.

Lemma filter_idempotent {A} (p : A -> bool) (l : list A) :
  filter p (filter p l) = filter p l.
Proof.
  induction l as [|x l IH]; [reflexivity|].
  cbn [filter]. destruct (p x) eqn:E; [|exact IH].
  cbn [filter]. now rewrite E, IH.
Qed.

Lemma find_filter_negb {A} (p : A -> bool) (l : list A) :
  find p (filter (fun x => negb (p x)) l) = None.
Proof. apply find_filter_nil, filter_negb. Qed.

(** X5. A call of [enter] that succeeds had a stake that is not negative;
    it leaves the bets, the options and the entries of everybody else (and
    of the other bets) as they were, and it hands the ledger exactly two
    calls: the release of the reservation of the user and the reservation
    of the new stake, under the name as it was given. *)
Theorem enter_touches (user optionName : string) (florins : Z)
        (w w' : World) (r : option BetEntry) :
  enter ledger_accepts betId user optionName florins w = (Ok r, w') ->
  0 <= florins
  /\ bets w' = bets w
  /\ betOptions w' = betOptions w
  /\ ledger w' = ledger w ++ [Unreserve user "bet"; Reserve user "bet" florins]
  /\ filter (fun e => negb (of_user betId (toLowerCase user) e)) (betEntries w')
     = filter (fun e => negb (of_user betId (toLowerCase user) e))
              (betEntries w).
Proof.
  intro H. apply enter_ok_inv in H
    as (o & e & _ & _ & Hpos & Hb & _ & Hu & _ & _ & ->).
  cbn [bets betOptions betEntries ledger]. repeat split; try assumption.
  assert (He : of_user betId (toLowerCase user) e = true).
  { unfold of_user, of_bet.
    now rewrite Hb, Hu, Z.eqb_refl, String.eqb_refl. }
  rewrite filter_app, filter_idempotent. cbn [filter].
  rewrite He. apply app_nil_r.
Qed.

(** The world [clear] leaves on an open bet. *)
Lemma clear_open (user : string) (w : World) :
  status_of betId w = Some Open ->
  clear betId user w
  = (Ok tt,
     {| bets := bets w;
        betOptions := betOptions w;
        betEntries :=
          filter (fun e => negb (of_user betId (toLowerCase user) e))
                 (betEntries w);
        ledger := ledger w |}).
Proof.
  intro Hs. unfold clear, bind at 1.
  now rewrite (getStatus_status_of betId w Open Hs).
Qed.

(** X6. What [enter] stores, [entryValue] reads back, however the name
    of the user is written; and once the user has cleared the entry,
    [entryValue] throws. *)
Theorem enter_entryValue (user again optionName : string) (florins : Z)
        (w w' : World) (r : option BetEntry) :
  enter ledger_accepts betId user optionName florins w = (Ok r, w') ->
  toLowerCase again = toLowerCase user ->
  entryValue betId again w' = (Ok florins, w')
  /\ entryValue betId again (after (clear betId again) w')
     = (Err TypeError, after (clear betId again) w').
Proof.
  intros H Hsame. apply enter_ok_inv in H
    as (o & e & Hs & _ & _ & Hb & _ & Hu & Ha & _ & ->).
  split.
  - assert (He : of_user betId (toLowerCase user) e = true).
    { unfold of_user, of_bet.
      now rewrite Hb, Hu, Z.eqb_refl, String.eqb_refl. }
    unfold entryValue, bind, query, ret. cbn [betEntries]. rewrite Hsame.
    rewrite find_app_none by apply find_filter_negb.
    rewrite He. cbn [or_zero]. now rewrite Ha.
  - unfold after. rewrite clear_open by exact Hs. cbn [snd].
    unfold entryValue, bind, query. cbn [betEntries].
    now rewrite find_filter_negb.
Qed.

(** X7. On an open bet [clear] takes out the entries of the user in this
    bet and nothing else, and does not call the ledger: the reservation
    made for the stake stays. On a bet that is not open it fails and
    changes nothing. *)
Theorem clear_effect (user : string) (w : World) (s : Status) :
  status_of betId w = Some s ->
  if Status_eqb s Open
  then
    exists w',
      clear betId user w = (Ok tt, w')
      /\ entries_of betId (toLowerCase user) w' = []
      /\ filter (fun e => negb (of_user betId (toLowerCase user) e))
                (betEntries w')
         = filter (fun e => negb (of_user betId (toLowerCase user) e))
                  (betEntries w)
      /\ ledger w' = ledger w
      /\ bets w' = bets w
      /\ betOptions w' = betOptions w
  else clear betId user w = (Err (InvalidState s), w).
Proof.
  intro Hs. destruct s; cbn [Status_eqb].
  - eexists. split; [apply clear_open, Hs|].
    unfold entries_of. cbn [betEntries ledger bets betOptions].
    repeat split.
    + apply filter_negb.
    + apply filter_idempotent.
  - unfold clear, bind at 1.
    now rewrite (getStatus_status_of betId w Closed Hs).
  - unfold clear, bind at 1.
    now rewrite (getStatus_status_of betId w Ended Hs).
Qed.

End Manager.

Lemma enter_touches_witness :
  ledger (after (enter responsive 1 "Bob" "A" 70) three_entries)
  = ledger three_entries ++ [Unreserve "Bob" "bet"; Reserve "Bob" "bet" 70].
Proof.
  exact (proj1 (proj2 (proj2 (proj2
           (enter_touches responsive 1 "Bob" "A" 70 three_entries
              (after (enter responsive 1 "Bob" "A" 70) three_entries)
              (Some {| ent_id := 4; ent_betId := 1; ent_optionId := 1;
                       ent_user := "bob"; ent_amount := 70 |})
              eq_refl))))).
Defined.

Lemma enter_entryValue_witness :
  entryValue 1 "BOB" (after (enter responsive 1 "Bob" "A" 70) three_entries)
  = (Ok 70, after (enter responsive 1 "Bob" "A" 70) three_entries).
Proof.
  exact (proj1 (enter_entryValue responsive 1 "Bob" "BOB" "A" 70 three_entries
                  (after (enter responsive 1 "Bob" "A" 70) three_entries)
                  (Some {| ent_id := 4; ent_betId := 1; ent_optionId := 1;
                           ent_user := "bob"; ent_amount := 70 |})
                  eq_refl eq_refl)).
Defined.

Lemma clear_effect_witness :
  (exists w',
      clear 1 "Bob" three_entries = (Ok tt, w')
      /\ entries_of 1 "bob" w' = []
      /\ ledger w' = ledger three_entries)
  /\ clear 1 "Bob" three_entries_closed
     = (Err (InvalidState Closed), three_entries_closed).
Proof.
  split.
  - destruct (clear_effect 1 "Bob" three_entries Open eq_refl)
      as (w' & Hclear & Hnone & _ & Hledger & _).
    exists w'. repeat split; assumption.
  - exact (clear_effect 1 "Bob" three_entries_closed Closed eq_refl).
Defined.

End ManagerMore.

(** ** What every reachable store satisfies *)
Module StoreFacts.
Import JS Bets Scenario Invariants ManagerFacts ManagerMore ParserShape.

Lemma lower_char_idempotent (c : ascii) :
  lower_char (lower_char c) = lower_char c.
Proof. destruct c as [[] [] [] [] [] [] [] []]; reflexivity. Qed.

Lemma toLowerCase_idempotent (s : string) :
  toLowerCase (toLowerCase s) = toLowerCase s.
Proof.
  induction s as [|c s IH]; [reflexivity|].
  cbn [toLowerCase]. now rewrite lower_char_idempotent, IH.
Qed.

Lemma Forall_filter {A} (P : A -> Prop) (p : A -> bool) (l : list A) :
  Forall P l -> Forall P (filter p l).
Proof.
  intro H. apply Forall_forall. intros x Hx.
  apply filter_In in Hx as [Hx _]. revert x Hx. now apply Forall_forall.
Qed.

Lemma filter_filter_length {A} (p q : A -> bool) (l : list A) :
  (List.length (filter p (filter q l)) <= List.length (filter p l))%nat.
Proof.
  induction l as [|x l IH]; [reflexivity|].
  cbn [filter]. destruct (q x); cbn [filter]; destruct (p x);
    cbn [List.length]; lia.
Qed.

Lemma filter_all {A} (p : A -> bool) (l : list A) :
  Forall (fun x => p x = true) l -> filter p l = l.
Proof.
  induction 1 as [|x l Hx _ IH]; [reflexivity|].
  cbn [filter]. now rewrite Hx, IH.
Qed.

Lemma filter_none {A} (p : A -> bool) (l : list A) :
  Forall (fun x => p x = false) l -> filter p l = [].
Proof.
  induction 1 as [|x l Hx _ IH]; [reflexivity|].
  cbn [filter]. now rewrite Hx, IH.
Qed.

(** *** Worlds that differ in the status of bets only *)

Lemma sound_same (w w' : World) :
  betEntries w' = betEntries w ->
  betOptions w' = betOptions w ->
  map bet_id (bets w') = map bet_id (bets w) ->
  sound w -> sound w'.
Proof.
  intros He Ho Hb.
  unfold sound, stakes_nonneg, users_lower, one_entry_each,
    entries_on_options, options_keyed, options_named.
  now rewrite He, Ho, Hb.
Qed.

Lemma map_bet_id_set_status (b : Z) (s : Status) (l : list Bet) :
  map bet_id (map (set_status b s) l) = map bet_id l.
Proof.
  rewrite map_map. apply map_ext. intro x. unfold set_status.
  now destruct (bet_id x =? b).
Qed.

(** *** Entries taken out *)

Lemma sound_filter (q : BetEntry -> bool) (w w' : World) :
  betEntries w' = filter q (betEntries w) ->
  betOptions w' = betOptions w ->
  bets w' = bets w ->
  sound w -> sound w'.
Proof.
  intros He Ho Hb (Hn & Hl & H1 & Hr & Hk & Hnm).
  unfold sound, stakes_nonneg, users_lower, one_entry_each,
    entries_on_options, options_keyed, options_named in *.
  rewrite He, Ho, Hb. repeat split; try tauto.
  - now apply Forall_filter.
  - now apply Forall_filter.
  - intros b u. eapply Nat.le_trans; [apply filter_filter_length | apply H1].
  - now apply Forall_filter.
Qed.

(** *** The writing functions of a manager *)

Lemma sound_clear (b : Z) (user : string) (w : World) :
  sound w -> sound (after (clear b user) w).
Proof.
  intro Hw. unfold after.
  cbv [clear bind getStatus query update throw ret].
  destruct (find _ (bets w)) as [x|]; [|exact Hw].
  destruct (negb _); [exact Hw|].
  cbn [snd].
  eapply (sound_filter
            (fun e => negb (of_user b (toLowerCase user) e)) w);
    [reflexivity | reflexivity | reflexivity | exact Hw].
Qed.

Lemma sound_close (b : Z) (w : World) :
  sound w -> sound (after (close b) w).
Proof.
  apply sound_same; try reflexivity.
  apply map_bet_id_set_status.
Qed.

(** [end] removes no entry and no option, however it comes out. *)
Lemma end_store (ledger_accepts : list LedgerCall -> LedgerCall -> bool)
      (b : Z) (optionName : string) (w : World) :
  betEntries (after (end_ ledger_accepts b optionName) w) = betEntries w
  /\ betOptions (after (end_ ledger_accepts b optionName) w) = betOptions w.
Proof.
  cbv [after end_ bind getBetOption getBetEntries pool query update
       call throw ret snd].
  destruct (find _ (betOptions w)); [|now split].
  cbn [set_bets ledger].
  destruct (ledger_accepts (ledger w) _); [|now split].
  cbn [set_ledger ledger].
  destruct (ledger_accepts _ _); [|now split].
  cbn [set_ledger ledger].
  destruct (ledger_accepts _ _); now split.
Qed.

Lemma sound_end (ledger_accepts : list LedgerCall -> LedgerCall -> bool)
      (b : Z) (optionName : string) (w : World) :
  sound w -> sound (after (end_ ledger_accepts b optionName) w).
Proof.
  destruct (end_store ledger_accepts b optionName w) as [He Ho].
  apply sound_same; try assumption.
  rewrite bets_end. destruct (fst _) as [[o|]|]; try reflexivity.
  apply map_bet_id_set_status.
Qed.

Lemma sound_enter (ledger_accepts : list LedgerCall -> LedgerCall -> bool)
      (b : Z) (user optionName : string) (florins : Z) (w : World) :
  sound w ->
  sound (after (enter ledger_accepts b user optionName florins) w).
Proof.
  intro Hw. unfold after.
  destruct (enter ledger_accepts b user optionName florins w)
    as [[r|err] w'] eqn:E; cbn [snd].
  2:{ apply enter_err_store in E as (Hb & Ho & He).
      apply (sound_same w w'); try assumption. now rewrite Hb. }
  apply enter_ok_inv in E
    as (o & e & _ & Hfind & Hpos & Hb & Hopt & Hu & Ha & _ & ->).
  apply find_some in Hfind as [Hin Hp].
  apply andb_prop in Hp as [Hob _]. apply Z.eqb_eq in Hob.
  destruct Hw as (Hn & Hl & H1 & Hr & Hk & Hnm).
  unfold sound, stakes_nonneg, users_lower, one_entry_each,
    entries_on_options, options_keyed, options_named in *.
  cbn [bets betOptions betEntries].
  repeat split; try tauto.
  - apply Forall_app. split; [now apply Forall_filter|].
    constructor; [lia | constructor].
  - apply Forall_app. split; [now apply Forall_filter|].
    constructor; [|constructor].
    rewrite Hu. apply toLowerCase_idempotent.
  - intros b' u. rewrite filter_app, length_app. cbn [filter].
    destruct (of_user b' u e) eqn:Hp.
    + assert (b' = b /\ u = toLowerCase user) as [-> ->].
      { unfold of_user, of_bet in Hp. apply andb_prop in Hp as [H1' H2'].
        apply Z.eqb_eq in H1'. apply String.eqb_eq in H2'.
        split; congruence. }
      now rewrite filter_negb.
    + cbn [List.length]. rewrite Nat.add_0_r.
      eapply Nat.le_trans; [apply filter_filter_length | apply H1].
  - apply Forall_app. split; [now apply Forall_filter|].
    constructor; [|constructor].
    exists o. repeat split; [exact Hin | now rewrite Hopt | congruence].
Qed.

(** *** The creation of a bet *)

Lemma optionRows_ids (b i : Z) (options : object) (names : list string) :
  Forall (fun r => i <= opt_id r) (optionRows b i options names)
  /\ NoDup (map opt_id (optionRows b i options names)).
Proof.
  revert i; induction names as [|n names IH]; intro i; cbn [optionRows map].
  - split; constructor.
  - destruct (IH (i + 1)) as [Hge Hnd]. split.
    + constructor; [cbn; lia|].
      eapply Forall_impl; [|exact Hge]. cbn. intros; lia.
    + cbn [opt_id]. constructor; [|exact Hnd].
      intro Hin. apply in_map_iff in Hin as (r & Hr & Hin).
      pose proof (proj1 (Forall_forall _ _) Hge r Hin) as Hle.
      cbv beta in Hle. lia.
Qed.

Lemma sound_createBet (options : object) (w : World) :
  NoDup (keys options) ->
  Forall (fun k => toLowerCase k = k) (keys options) ->
  sound w -> sound (after (createBet options) w).
Proof.
  intros Hnd Hlow (Hn & Hl & H1 & Hr & (Hids & Hbets) & (Hnames & Hdistinct)).
  rewrite createBet_world.
  set (id := next_id (map bet_id (bets w))).
  set (rows := optionRows id (next_id (map opt_id (betOptions w))) options
                          (keys options)).
  pose proof (optionRows_ids id (next_id (map opt_id (betOptions w)))
                options (keys options)) as [Hge Hrows].
  pose proof (optionRows_betId id (next_id (map opt_id (betOptions w)))
                options (keys options)) as Hrb.
  pose proof (optionRows_names id (next_id (map opt_id (betOptions w)))
                options (keys options)) as Hrn.
  fold rows in Hge, Hrows, Hrb, Hrn.
  unfold sound, stakes_nonneg, users_lower, one_entry_each,
    entries_on_options, options_keyed, options_named.
  cbn [bets betOptions betEntries].
  repeat split; try assumption.
  - eapply Forall_impl; [|exact Hr].
    intros e (o & Hin & Ho). exists o. split; [|exact Ho].
    apply in_or_app. now left.
  - rewrite map_app. apply NoDup_app; try assumption.
    intros a Ha Ha'.
    apply fold_max_le in Ha.
    apply in_map_iff in Ha' as (r & <- & Hin).
    pose proof (proj1 (Forall_forall _ _) Hge r Hin) as Hle.
    cbv beta in Hle. unfold next_id in Hle. lia.
  - apply Forall_app. split.
    + eapply Forall_impl; [|exact Hbets].
      intros o Ho. rewrite map_app. apply in_or_app. now left.
    + eapply Forall_impl; [|exact Hrb].
      intros o ->. rewrite map_app. apply in_or_app. right. now left.
  - apply Forall_app. split; [exact Hnames|].
    apply Forall_forall. intros r Hin.
    apply (proj1 (Forall_forall _ _) Hlow).
    rewrite <- Hrn. now apply in_map.
  - intro b. rewrite filter_app, map_app.
    destruct (Z.eq_dec b id) as [->|Hne].
    + rewrite (filter_none _ (betOptions w)).
      * cbn [map app]. rewrite filter_all; [now rewrite Hrn|].
        eapply Forall_impl; [|exact Hrb].
        intros o ->. apply Z.eqb_refl.
      * eapply Forall_impl; [|exact Hbets].
        intros o Ho. apply Z.eqb_neq. apply fold_max_le in Ho.
        unfold id, next_id. lia.
    + rewrite (filter_none _ rows).
      * rewrite app_nil_r. apply Hdistinct.
      * eapply Forall_impl; [|exact Hrb].
        intros o ->. apply Z.eqb_neq. congruence.
Qed.

Lemma sound_empty : sound empty.
Proof.
  unfold sound, stakes_nonneg, users_lower, one_entry_each,
    entries_on_options, options_keyed, options_named.
  cbn. repeat split; try constructor. intros; lia.
Qed.

(** X8. Every store the module can bring about is sound: no stake is
    negative, user names are stored in lower case, nobody has two entries
    in a bet, every entry is on an option of its own bet, and the options
    have distinct keys and, within a bet, distinct names in lower case. *)
Theorem reachable_sound
        (ledger_accepts : list LedgerCall -> LedgerCall -> bool) (w : World) :
  reachable ledger_accepts w -> sound w.
Proof.
  induction 1 as [ | fuel trailing options w _ IH Hparse
                   | b user optionName florins w _ IH
                   | b user w _ IH
                   | b w _ IH
                   | b optionName w _ IH ].
  - exact sound_empty.
  - destruct (parse_wellformed fuel trailing options Hparse) as [Hnd Hall].
    apply sound_createBet; try assumption.
    apply Forall_forall. intros k Hk.
    apply in_map_iff in Hk as (kv & <- & Hkv).
    apply toLowerCase_all_lower.
    exact (proj1 (proj1 (Forall_forall _ _) Hall kv Hkv)).
  - now apply sound_enter.
  - now apply sound_clear.
  - now apply sound_close.
  - now apply sound_end.
Qed.

Lemma reachable_three_entries : reachable responsive three_entries.
Proof.
  unfold three_entries, opened.
  do 3 apply reach_enter.
  apply (reach_open responsive 3 "a) Cats b) Dogs" cats_or_dogs empty).
  - apply reach_empty.
  - reflexivity.
Defined.

Lemma reachable_sound_witness : sound three_entries.
Proof.
  exact (reachable_sound responsive three_entries reachable_three_entries).
Defined.

Lemma sound_three_entries : sound three_entries.
Proof.
  unfold three_entries, opened. do 3 apply sound_enter.
  apply sound_createBet; [| | exact sound_empty].
  - repeat constructor; cbn; intuition discriminate.
  - repeat constructor.
Defined.

End StoreFacts.

(** ** Integers held in binary64 *)
Module NumberFacts.
Import JS Bets Scenario.

Lemma digits2_pos_bounds (p : positive) :
  2 ^ (Z.pos (digits2_pos p) - 1) <= Z.pos p < 2 ^ Z.pos (digits2_pos p).
Proof.
  induction p as [p IH|p IH|]; cbn [digits2_pos].
  - rewrite Pos2Z.inj_succ.
    replace (Z.succ (Z.pos (digits2_pos p)) - 1)
      with (Z.succ (Z.pos (digits2_pos p) - 1)) by lia.
    rewrite !Z.pow_succ_r by lia. lia.
  - rewrite Pos2Z.inj_succ.
    replace (Z.succ (Z.pos (digits2_pos p)) - 1)
      with (Z.succ (Z.pos (digits2_pos p) - 1)) by lia.
    rewrite !Z.pow_succ_r by lia. lia.
  - cbn. lia.
Qed.

(** A mantissa of 53 bits with an exponent in range is not rounded. *)
Lemma round_canonical (s : bool) (m : positive) (e : Z) :
  digits2_pos m = 53%positive -> -1074 <= e <= 971 ->
  binary_round_aux prec emax s (Z.pos m) e loc_Exact = S754_finite s m e.
Proof.
  intros Hd He.
  assert (Hshift : fexp prec emax (Zdigits2 (Z.pos m) + e) - e = 0).
  { cbn [Zdigits2]. rewrite Hd. unfold fexp, emin, prec, emax. lia. }
  unfold binary_round_aux, shr_fexp.
  rewrite Hshift.
  cbn [shr shr_record_of_loc shr_m loc_of_shr_record round_nearest_even].
  rewrite Hshift. cbn [shr shr_record_of_loc shr_m].
  replace (e <=? emax - prec) with true; [reflexivity|].
  symmetry. apply Z.leb_le. unfold emax, prec. lia.
Qed.

Lemma digits2_pos_iter (p k : positive) :
  digits2_pos (Pos.iter xO p k) = (digits2_pos p + k)%positive.
Proof.
  induction k as [|k IH] using Pos.peano_ind.
  - cbn. lia.
  - rewrite Pos.iter_succ. cbn [digits2_pos]. rewrite IH. lia.
Qed.

Lemma pos_iter_xO (p k : positive) :
  Z.pos (Pos.iter xO p k) = Z.pos p * 2 ^ Z.pos k.
Proof.
  induction k as [|k IH] using Pos.peano_ind.
  - cbn. lia.
  - rewrite Pos.iter_succ, Pos2Z.inj_xO, IH, Pos2Z.inj_succ, Z.pow_succ_r
      by lia.
    lia.
Qed.

(** A positive integer below 2^53 is held exactly. *)
Lemma of_Z_small (v : Z) :
  0 < v < 2 ^ 53 ->
  exists m e, of_Z v = S754_finite false m e
              /\ digits2_pos m = 53%positive
              /\ -52 <= e <= 0
              /\ Z.pos m = v * 2 ^ (- e).
Proof.
  intros Hv. destruct v as [|p|p]; try lia.
  unfold of_Z, binary_normalize, binary_round, shl_align.
  pose proof (digits2_pos_bounds p) as Hb.
  assert (Hd : Z.pos (digits2_pos p) <= 53).
  { destruct (Z.le_gt_cases (Z.pos (digits2_pos p)) 53) as [H|H]; [exact H|].
    assert (2 ^ 53 <= 2 ^ (Z.pos (digits2_pos p) - 1))
      by (apply Z.pow_le_mono_r; lia).
    lia. }
  assert (Hf : fexp prec emax (Z.pos (digits2_pos p) + 0)
               = Z.pos (digits2_pos p) - 53).
  { unfold fexp, emin, prec, emax. lia. }
  rewrite Hf, Z.sub_0_r.
  destruct (Z.pos (digits2_pos p) - 53) as [|k|k] eqn:Ek; try lia.
  - assert (Hd53 : digits2_pos p = 53%positive) by lia.
    exists p, 0. rewrite round_canonical by (try assumption; lia).
    split; [reflexivity|]. split; [assumption|]. split; [lia|].
    cbn. lia.
  - assert (Hd53 : digits2_pos (Pos.iter xO p k) = 53%positive)
      by (rewrite digits2_pos_iter; lia).
    exists (Pos.iter xO p k), (Z.neg k).
    rewrite round_canonical by (try assumption; lia).
    split; [reflexivity|]. split; [assumption|]. split; [lia|].
    rewrite pos_iter_xO. reflexivity.
Qed.

(** An integer from 0 to below 2^53 is held as itself. *)
Lemma of_Z_integer (v : Z) : 0 <= v < 2 ^ 53 -> is_integer (of_Z v) v.
Proof.
  intros Hv. destruct (Z.eq_dec v 0) as [->|Hne]; [reflexivity|].
  destruct (of_Z_small v ltac:(lia)) as (m & e & -> & _ & He & Hm).
  unfold is_integer. destruct (0 <=? e) eqn:E; [|exact Hm].
  apply Z.leb_le in E. assert (e = 0) as -> by lia.
  cbn in Hm. cbn. lia.
Qed.

(** From 2^53 on an integer is not always held as itself: 2^53 + 1
    becomes 2^53. *)
Lemma of_Z_rounds : of_Z (2 ^ 53 + 1) = of_Z (2 ^ 53).
Proof. vm_compute. reflexivity. Qed.

(** [v || 0] leaves such an integer as it is. *)
Lemma or_zero_number_of_Z (v : Z) :
  0 <= v < 2 ^ 53 -> or_zero_number (Some (of_Z v)) = of_Z v.
Proof.
  intros Hv. destruct (Z.eq_dec v 0) as [->|Hne]; [reflexivity|].
  now destruct (of_Z_small v ltac:(lia)) as (m & e & -> & _).
Qed.

(** A total received from the store, with [|| 0], is the number nearest
    to the sum, when the sum is from 0 to below 2^53. *)
Lemma received_or_zero (l : list Z) :
  0 <= fold_right Z.add 0 l < 2 ^ 53 ->
  or_zero_number (received (sql_sum l)) = of_Z (fold_right Z.add 0 l).
Proof.
  destruct l as [|x l]; [reflexivity|]. intro H.
  cbn [sql_sum received option_map]. now apply or_zero_number_of_Z.
Qed.

End NumberFacts.

(** ** The values of the options and the pool *)
Module ValueFacts.
Import JS Bets Scenario Invariants ManagerFacts ManagerMore StoreFacts
       NumberFacts.

(** Rows taken out of a table leave its keys distinct. *)
Lemma distinct_keys_kept {A} (key : A -> Z) (keep : A -> bool)
      (rows : list A) (Hkeys : NoDup (map key rows)) :
  NoDup (map key (filter keep rows)).
Proof.
  revert Hkeys. induction rows as [|r rows IHrows]; cbn [map filter];
    [trivial|].
  intro H. inversion H as [|? ? Hnotin Hnd]; subst.
  destruct (keep r); [|now apply IHrows].
  cbn [map]. constructor; [|now apply IHrows].
  intro Hin. apply Hnotin.
  apply in_map_iff in Hin as (y & Hy & Hin).
  apply filter_In in Hin as [Hin _].
  rewrite <- Hy. now apply in_map.
Qed.

Lemma NoDup_map_eq {A B} (f : A -> B) (l : list A) (x y : A) :
  NoDup (map f l) -> In x l -> In y l -> f x = f y -> x = y.
Proof.
  induction l as [|z l IH]; cbn [map In]; [tauto|].
  intro H. inversion H as [|? ? Hnotin Hnd]; subst.
  intros [->|Hx] [->|Hy] Heq; try reflexivity.
  - destruct Hnotin. rewrite Heq. now apply in_map.
  - destruct Hnotin. rewrite <- Heq. now apply in_map.
  - now apply IH.
Qed.

Lemma find_first {A} (p : A -> bool) (l : list A) (x : A) :
  In x l -> p x = true -> exists y, find p l = Some y.
Proof.
  induction l as [|z l IH]; cbn [In find]; [tauto|].
  intros [->|Hin] Hp.
  - rewrite Hp. now exists x.
  - destruct (p z); [now exists z | now apply IH].
Qed.

(** Exactly one of the distinct keys is the given one. *)
Lemma sum_one_key {A} (f : A -> Z) (l : list A) (x : A) (a : Z) :
  NoDup (map f l) -> In x l ->
  fold_right Z.add 0 (map (fun y => if f x =? f y then a else 0) l) = a.
Proof.
  induction l as [|z l IH]; cbn [map In fold_right]; [tauto|].
  intro H. inversion H as [|? ? Hnotin Hnd]; subst.
  intros [->|Hin].
  - rewrite Z.eqb_refl.
    replace (fold_right Z.add 0 (map _ l)) with 0; [lia|].
    symmetry. clear IH H Hnd.
    induction l as [|y l IH]; [reflexivity|].
    cbn [map fold_right].
    destruct (f x =? f y) eqn:E.
    + apply Z.eqb_eq in E. destruct Hnotin. rewrite E. now left.
    + rewrite IH; [reflexivity|]. intro Hin. apply Hnotin. now right.
  - destruct (f x =? f z) eqn:E.
    + apply Z.eqb_eq in E. destruct Hnotin. rewrite <- E. now apply in_map.
    + rewrite IH by assumption. lia.
Qed.

Lemma sum_map_add {A} (g h : A -> Z) (l : list A) :
  fold_right Z.add 0 (map (fun x => g x + h x) l)
  = fold_right Z.add 0 (map g l) + fold_right Z.add 0 (map h l).
Proof.
  induction l as [|x l IH]; cbn [map fold_right]; lia.
Qed.

Section Bet.

Variable betId : Z.

Lemma stakes_cons_option (id : Z) (e : BetEntry) (entries : list BetEntry) :
  stakes (filter (of_option betId id) (e :: entries))
  = (if of_bet betId e && (ent_optionId e =? id) then ent_amount e else 0)
    + stakes (filter (of_option betId id) entries).
Proof.
  cbn [filter]. unfold of_option at 1.
  destruct (of_bet betId e && (ent_optionId e =? id)); unfold stakes;
    cbn [map fold_right]; lia.
Qed.

Lemma stakes_cons_bet (e : BetEntry) (entries : list BetEntry) :
  stakes (filter (of_bet betId) (e :: entries))
  = (if of_bet betId e then ent_amount e else 0)
    + stakes (filter (of_bet betId) entries).
Proof.
  cbn [filter].
  destruct (of_bet betId e); unfold stakes; cbn [map fold_right]; lia.
Qed.

Lemma sum_zero {A} (l : list A) :
  fold_right Z.add 0 (map (fun _ => 0) l) = 0.
Proof. induction l as [|x l IH]; cbn [map fold_right]; lia. Qed.

(** The stakes of the entries of the bet, told by option, add up to the
    stakes of the bet. *)
Lemma stakes_by_option (opts : list BetOption) (entries : list BetEntry) :
  NoDup (map opt_id opts) ->
  Forall (fun e => ent_betId e = betId ->
                   exists o, In o opts /\ opt_id o = ent_optionId e) entries ->
  fold_right Z.add 0
    (map (fun o => stakes (filter (of_option betId (opt_id o)) entries)) opts)
  = stakes (filter (of_bet betId) entries).
Proof.
  intros Hnd Hall. induction Hall as [|e entries He _ IH].
  - cbn [filter]. unfold stakes. cbn [map fold_right]. apply sum_zero.
  - rewrite (map_ext _ _ (fun o => stakes_cons_option (opt_id o) e entries)).
    rewrite sum_map_add, IH, stakes_cons_bet. f_equal.
    unfold of_bet. destruct (ent_betId e =? betId) eqn:Eb; cbn [andb].
    + apply Z.eqb_eq in Eb. destruct (He Eb) as (o0 & Hin & Hid).
      rewrite <- Hid. now apply sum_one_key.
    + apply sum_zero.
Qed.

(** The stakes on an option are among the stakes of the bet. *)
Lemma stakes_option_bounds (id : Z) (entries : list BetEntry) :
  Forall (fun e => 0 <= ent_amount e) entries ->
  0 <= stakes (filter (of_option betId id) entries)
    <= stakes (filter (of_bet betId) entries).
Proof.
  induction 1 as [|e entries He _ IH].
  - cbn [filter]. unfold stakes. cbn [map fold_right]. lia.
  - rewrite stakes_cons_option, stakes_cons_bet.
    destruct (of_bet betId e); cbn [andb]; [|lia].
    destruct (ent_optionId e =? id); lia.
Qed.

(** In a sound store [optionValue] finds every option that [options ()]
    lists, and returns the total of the entries on it as received from
    the store. *)
Lemma optionValue_listed (w : World) (o : BetOption) :
  sound w ->
  In o (filter (fun o => opt_betId o =? betId) (betOptions w)) ->
  optionValue betId (opt_name o) w
  = (Ok (or_zero_number
           (received
              (sql_sum (map ent_amount
                            (filter (of_option betId (opt_id o))
                                    (betEntries w)))))), w).
Proof.
  intros (_ & _ & _ & _ & _ & (Hlow & Hdistinct)) Ho.
  pose proof Ho as Ho'. apply filter_In in Ho' as [Hin Hb].
  unfold optionValue, bind at 1, getBetOption, query at 1.
  rewrite (proj1 (Forall_forall _ _) Hlow o Hin).
  destruct (find_first
              (fun o' => (opt_betId o' =? betId)
                         && String.eqb (opt_name o') (opt_name o))
              (betOptions w) o Hin) as [o' Hfind].
  { now rewrite Hb, String.eqb_refl. }
  rewrite Hfind. apply find_some in Hfind as [Hin' Hp].
  apply andb_prop in Hp as [Hb' Hname]. apply String.eqb_eq in Hname.
  assert (o' = o) as ->.
  { apply (NoDup_map_eq opt_name
             (filter (fun o => opt_betId o =? betId) (betOptions w)));
      try assumption.
    - apply Hdistinct.
    - apply filter_In. now split. }
  reflexivity.
Qed.

Lemma Forall2_map_map {A B C} (R : B -> C -> Prop) (f : A -> B) (g : A -> C)
      (l : list A) :
  (forall x, In x l -> R (f x) (g x)) -> Forall2 R (map f l) (map g l).
Proof.
  induction l as [|x l IH]; intro H; cbn [map]; constructor.
  - apply H. now left.
  - apply IH. intros y Hy. apply H. now right.
Qed.

(** The values of the options of a bet and its pool, when the stakes of
    the bet add up to less than 2^53: the numbers [optionValue] returns
    are the sums of the stakes on the options, and these sums add up to
    the number [pool ()] returns. *)
Lemma option_values_sum (w : World) :
  sound w ->
  stakes (filter (of_bet betId) (betEntries w)) < 2 ^ 53 ->
  let opts := filter (fun o => opt_betId o =? betId) (betOptions w) in
  let numbers :=
    map (fun o =>
           or_zero_number
             (received
                (sql_sum (map ent_amount
                              (filter (of_option betId (opt_id o))
                                      (betEntries w)))))) opts in
  let values :=
    map (fun o => stakes (filter (of_option betId (opt_id o)) (betEntries w)))
        opts in
  getBetOptions betId w = (Ok opts, w)
  /\ Forall2 (fun o x => optionValue betId (opt_name o) w = (Ok x, w))
             opts numbers
  /\ Forall2 is_integer numbers values
  /\ fold_right Z.add 0 values
     = stakes (filter (of_bet betId) (betEntries w))
  /\ is_integer
       (to_number
          (received
             (sql_sum (map ent_amount
                           (filter (of_bet betId) (betEntries w))))))
       (fold_right Z.add 0 values).
Proof.
  intros Hsound Hbound. cbv zeta.
  pose proof Hsound as (Hn & _ & _ & Hr & (Hids & _) & _).
  assert (Hsum :
            fold_right Z.add 0
              (map (fun o => stakes (filter (of_option betId (opt_id o))
                                            (betEntries w)))
                   (filter (fun o => opt_betId o =? betId) (betOptions w)))
            = stakes (filter (of_bet betId) (betEntries w))).
  { apply (stakes_by_option _ (betEntries w)).
    - now apply distinct_keys_kept.
    - eapply Forall_impl; [|exact Hr].
      intros e (o & Hin & Hid & Hb) He. exists o. split; [|exact Hid].
      apply filter_In. split; [exact Hin|].
      apply Z.eqb_eq. congruence. }
  split; [reflexivity|]. split; [|split; [|split; [exact Hsum|]]].
  - rewrite <- (map_id (filter _ (betOptions w))) at 1.
    apply Forall2_map_map. intros o Ho. now apply optionValue_listed.
  - apply Forall2_map_map. intros o _.
    pose proof (stakes_option_bounds (opt_id o) (betEntries w) Hn) as Hb.
    unfold stakes in *.
    rewrite received_or_zero by lia. apply of_Z_integer. lia.
  - rewrite Hsum, to_number_received, or_zero_sql_sum.
    pose proof (stakes_option_bounds 0 (betEntries w) Hn) as Hb.
    apply of_Z_integer. unfold stakes in *. lia.
Qed.

(** X9. In a sound store whose stakes in the bet add up to less than
    2^53, the values of the options of a bet add up to its pool:
    [optionValue] succeeds for every option that [options ()] lists, with
    the number that is the sum of the stakes of the entries on that
    option, and the sum of these values is the number [pool ()] returns
    (0 for its null). *)
Theorem optionValues_pool (w : World) :
  sound w ->
  stakes (filter (of_bet betId) (betEntries w)) < 2 ^ 53 ->
  exists opts numbers values total,
    getBetOptions betId w = (Ok opts, w)
    /\ Forall2 (fun o x => optionValue betId (opt_name o) w = (Ok x, w))
               opts numbers
    /\ Forall2 is_integer numbers values
    /\ values
       = map (fun o => stakes (filter (of_option betId (opt_id o))
                                      (betEntries w))) opts
    /\ pool betId w = (Ok total, w)
    /\ is_integer (to_number total) (fold_right Z.add 0 values).
Proof.
  intros Hsound Hbound.
  destruct (option_values_sum w Hsound Hbound)
    as (Hopts & Hnumbers & Hvalues & _ & Hpool).
  do 4 eexists.
  split; [exact Hopts|]. split; [exact Hnumbers|].
  split; [exact Hvalues|]. split; [reflexivity|].
  split; [reflexivity | exact Hpool].
Qed.

End Bet.

Lemma optionValues_pool_witness :
  stakes (filter (of_bet 1) (betEntries three_entries)) < 2 ^ 53
  /\ exists opts numbers values total,
      getBetOptions 1 three_entries = (Ok opts, three_entries)
      /\ Forall2 (fun o x => optionValue 1 (opt_name o) three_entries
                             = (Ok x, three_entries)) opts numbers
      /\ Forall2 is_integer numbers values
      /\ values = [150; 200]
      /\ pool 1 three_entries = (Ok total, three_entries)
      /\ is_integer (to_number total) (fold_right Z.add 0 values).
Proof.
  split; [reflexivity|].
  destruct (optionValues_pool 1 three_entries sound_three_entries eq_refl)
    as (opts & numbers & values & total & Hopts & Hnumbers & Hvalues & Hmap
        & Hpool & Htotal).
  exists opts, numbers, values, total.
  split; [exact Hopts|]. split; [exact Hnumbers|].
  split; [exact Hvalues|]. split; [|split; [exact Hpool | exact Htotal]].
  rewrite Hmap. injection Hopts as <-. reflexivity.
Defined.

End ValueFacts.

(** ** The end of a bet, its creation and its recovery *)
Module LifecycleFacts.
Import JS Bets Scenario Invariants ManagerFacts ManagerMore StoreFacts
       ParserShape NumberFacts ValueFacts.

Section Manager.

Variable ledger_accepts : list LedgerCall -> LedgerCall -> bool.
Variable betId : Z.

(** X10. The two ways [end] fails. With a key that names no option it
    fails before anything is written: the world, the status included, is
    as it was. When the ledger does not take the debits it fails after the
    status has been written: the bet is ended, and nothing else has
    changed. *)
Theorem end_failures (optionName : string) (w : World) :
  (unknown betId optionName w ->
   end_ ledger_accepts betId optionName w
   = (Err (UnknownOption optionName), w))
  /\ (forall o,
         getBetOption betId optionName w = (Ok (Some o), w) ->
         (forall c, ledger_accepts (ledger w) c = false) ->
         end_ ledger_accepts betId optionName w
         = (Err DependencyError,
            {| bets := map (set_status betId Ended) (bets w);
               betOptions := betOptions w;
               betEntries := betEntries w;
               ledger := ledger w |})).
Proof.
  split.
  - intro Hu. unfold end_, bind at 1.
    now rewrite (getBetOption_unknown betId optionName w Hu).
  - intros o Ho Hdown. unfold end_, bind at 1. rewrite Ho.
    cbv [bind getBetEntries pool query update call ret].
    unfold set_bets at 1. cbn [ledger]. now rewrite Hdown.
Qed.

(** X11. With the ledger up and a key that names an option, the first
    batch [end] hands the ledger holds one debit per entry of the bet, in
    the order of the store, of the stake of the entry. The debits add up
    to the sum of the stakes of the bet, negated; [pool ()] returned the
    number nearest to that sum, which is that sum when it is from 0 to
    below 2^53. *)
Theorem end_debits (optionName : string) (w : World) (o : BetOption) :
  up ledger_accepts ->
  getBetOption betId optionName w = (Ok (Some o), w) ->
  let all := filter (of_bet betId) (betEntries w) in
  exists winners debits credits total w',
    end_ ledger_accepts betId optionName w = (Ok winners, w')
    /\ ledger w' = ledger w ++ [Transactions debits;
                                Transactions credits;
                                ClearReservations "bet"]
    /\ map (fun t => (username t, amount t)) debits
       = map (fun e => (ent_user e, JNum (- ent_amount e))) all
    /\ Scenario.total debits = JNum (- stakes all)
    /\ pool betId w = (Ok total, w)
    /\ to_number total = of_Z (stakes all)
    /\ (0 <= stakes all < 2 ^ 53 -> is_integer (to_number total) (stakes all)).
Proof.
  intros Hup Ho. cbv zeta.
  rewrite (end_runs ledger_accepts betId optionName w o Hup Ho).
  destruct (debits_total_pool betId w) as (Hpool & Hnumber & Htotal).
  do 5 eexists.
  split; [reflexivity|]. cbn [ledger].
  split; [reflexivity|]. split; [|split; [exact Htotal|]].
  - rewrite !map_map. reflexivity.
  - split; [exact Hpool|]. split; [exact Hnumber|].
    intro Hbound. rewrite Hnumber. now apply of_Z_integer.
Qed.

(** X12. [end] removes nothing: however it comes out, the entries and
    the options are those of before, so that [pool ()] returns after it
    what it returned before it. *)
Theorem end_keeps_entries (optionName : string) (w : World) :
  betEntries (after (end_ ledger_accepts betId optionName) w) = betEntries w
  /\ betOptions (after (end_ ledger_accepts betId optionName) w)
     = betOptions w
  /\ fst (pool betId (after (end_ ledger_accepts betId optionName) w))
     = fst (pool betId w).
Proof.
  destruct (end_store ledger_accepts betId optionName w) as [He Ho].
  repeat split; try assumption.
  cbv [pool query fst]. now rewrite He.
Qed.

End Manager.

Lemma end_failures_witness :
  end_ responsive 1 "z" three_entries
  = (Err (UnknownOption "z"), three_entries)
  /\ status_of 1 (after (end_ unreachable 1 "a") three_entries) = Some Ended.
Proof.
  split.
  - exact (proj1 (end_failures responsive 1 "z" three_entries) unknown_z).
  - unfold after.
    rewrite (proj2 (end_failures unreachable 1 "a" three_entries)
                   cats eq_refl (fun c => eq_refl)).
    reflexivity.
Defined.

Lemma end_debits_witness :
  exists winners debits credits total w',
    end_ responsive 1 "a" three_entries = (Ok winners, w')
    /\ ledger w' = ledger three_entries ++ [Transactions debits;
                                            Transactions credits;
                                            ClearReservations "bet"]
    /\ Scenario.total debits = JNum (- 350)
    /\ pool 1 three_entries = (Ok total, three_entries)
    /\ is_integer (to_number total) 350.
Proof.
  destruct (end_debits responsive 1 "a" three_entries cats responsive_up
                       eq_refl)
    as (winners & debits & credits & total & w' & Hend & Hledger & _
        & Htotal & Hpool & _ & Hinteger).
  exists winners, debits, credits, total, w'.
  split; [exact Hend|]. split; [exact Hledger|].
  split; [exact Htotal|]. split; [exact Hpool|].
  apply Hinteger. split; [discriminate | reflexivity].
Defined.

(** *** Recovery *)

Lemma find_app {A} (p : A -> bool) (l l' : list A) :
  find p (l ++ l')
  = match find p l with
    | Some x => Some x
    | None => find p l'
    end.
Proof.
  induction l as [|x l IH]; [reflexivity|].
  cbn [app find]. now destruct (p x).
Qed.

(** X13. After a bet has been created, [restoreBet] still picks the bet
    it picked before, if there was one: a bet that was never ended hides
    every bet opened after it. It picks the new bet only when all the bets
    before it are ended. *)
Theorem restoreBet_after_createBet (options : object) (w : World) :
  restoreBet (after (createBet options) w)
  = (Ok (Some match fst (restoreBet w) with
              | Ok (Some id) => id
              | _ => next_id (map bet_id (bets w))
              end),
     after (createBet options) w).
Proof.
  rewrite createBet_world.
  cbv [restoreBet query fst]. cbn [bets].
  rewrite find_app.
  destruct (find _ (bets w)); reflexivity.
Qed.

(** X14. In the store [end] leaves when it is called with a key that
    names an option, [restoreBet] does not pick this bet, even when the
    ledger failed and no pay-out was made. This holds for that store only:
    [close] on the ended bet stores the status closed, and [restoreBet]
    picks the bet again. *)
Theorem restoreBet_after_end
        (ledger_accepts : list LedgerCall -> LedgerCall -> bool)
        (betId : Z) (optionName : string) (w : World) (o : BetOption) :
  getBetOption betId optionName w = (Ok (Some o), w) ->
  fst (restoreBet (after (end_ ledger_accepts betId optionName) w))
  <> Ok (Some betId)
  /\ fst (restoreBet three_entries_ended) = Ok None
  /\ fst (restoreBet (after (close 1) three_entries_ended)) = Ok (Some 1).
Proof.
  intro Ho. split; [|split; vm_compute; reflexivity].
  cbv [restoreBet query fst].
  rewrite bets_end, Ho. cbn [fst].
  destruct (find _ (map (set_status betId Ended) (bets w))) as [x|] eqn:E;
    cbn [option_map]; [|discriminate].
  apply find_some in E as [Hin Hp].
  apply in_map_iff in Hin as (y & <- & _).
  intros [= Hid]. unfold set_status in Hp, Hid.
  destruct (bet_id y =? betId) eqn:Ey.
  - discriminate Hp.
  - apply Z.eqb_neq in Ey. contradiction.
Qed.

(** *** The options of a created bet *)

Lemma get_in (options : object) (k d : string) :
  NoDup (keys options) -> In (k, d) options -> get options k = Some d.
Proof.
  induction options as [|[k' d'] options IH]; cbn [keys map fst In get];
    [tauto|].
  intro H. inversion H as [|? ? Hnotin Hnd]; subst.
  intros [[= -> ->]|Hin].
  - now rewrite String.eqb_refl.
  - destruct (String.eqb k' k) eqn:E; [|now apply IH].
    apply String.eqb_eq in E as ->. destruct Hnotin.
    change k with (fst (k, d)). now apply in_map.
Qed.

Lemma find_none {A} (p : A -> bool) (l : list A) :
  Forall (fun x => p x = false) l -> find p l = None.
Proof.
  induction 1 as [|x l Hx _ IH]; [reflexivity|].
  cbn [find]. now rewrite Hx.
Qed.

(** X15. What [createBet] stores, [getBetOption] finds: in a sound store,
    each pair of a key and a description of the option map is found under
    its key, however the key is written, in the bet just created, with
    that description, and [valid] says so. *)
Theorem created_option_found (options : object) (w : World)
        (name k d : string) :
  sound w ->
  NoDup (keys options) ->
  In (k, d) options ->
  toLowerCase name = k ->
  exists o,
    getBetOption (next_id (map bet_id (bets w))) name
                 (after (createBet options) w)
    = (Ok (Some o), after (createBet options) w)
    /\ opt_name o = k
    /\ opt_description o = d
    /\ valid (next_id (map bet_id (bets w))) name
             (after (createBet options) w)
       = (Ok true, after (createBet options) w).
Proof.
  intros (_ & _ & _ & _ & (_ & Hbets) & _) Hnd Hin Hname.
  set (id := next_id (map bet_id (bets w))).
  set (rows := optionRows id (next_id (map opt_id (betOptions w))) options
                          (keys options)).
  assert (Hfind : exists o,
             find (fun o => (opt_betId o =? id)
                            && String.eqb (opt_name o) (toLowerCase name))
                  (betOptions w ++ rows) = Some o
             /\ opt_name o = k /\ opt_description o = d).
  { rewrite find_app, find_none.
    2:{ eapply Forall_impl; [|exact Hbets].
        intros o Ho. apply fold_max_le in Ho.
        replace (opt_betId o =? id) with false; [reflexivity|].
        symmetry. apply Z.eqb_neq. unfold id, next_id. lia. }
    assert (Hk : In k (map opt_name rows)).
    { unfold rows. rewrite optionRows_names.
      change k with (fst (k, d)). now apply in_map. }
    apply in_map_iff in Hk as (r & Hr & Hinr).
    destruct (find_first
                (fun o => (opt_betId o =? id)
                          && String.eqb (opt_name o) (toLowerCase name))
                rows r Hinr) as [o Ho].
    { rewrite Hname, Hr, String.eqb_refl.
      rewrite (proj1 (Forall_forall _ _)
                     (optionRows_betId id _ options (keys options)) r Hinr).
      now rewrite Z.eqb_refl. }
    exists o. split; [exact Ho|].
    apply find_some in Ho as [Hino Hp].
    apply andb_prop in Hp as [_ Hn]. apply String.eqb_eq in Hn.
    rewrite Hname in Hn. split; [exact Hn|].
    pose proof (proj1 (Forall_forall _ _)
                      (optionRows_description id _ options (keys options)
                         (incl_refl _)) o Hino) as Hd.
    cbv beta in Hd. rewrite Hn, (get_in options k d Hnd Hin) in Hd.
    now injection Hd. }
  destruct Hfind as (o & Ho & Hn & Hd).
  exists o.
  assert (Hget : getBetOption id name (after (createBet options) w)
                 = (Ok (Some o), after (createBet options) w)).
  { unfold getBetOption, query. f_equal. f_equal.
    rewrite createBet_world. exact Ho. }
  repeat split; try assumption.
  unfold valid, bind. now rewrite Hget.
Qed.

Lemma restoreBet_after_end_witness :
  fst (restoreBet three_entries) = Ok (Some 1)
  /\ fst (restoreBet (after (end_ unreachable 1 "a") three_entries))
     <> Ok (Some 1).
Proof.
  split; [reflexivity|].
  exact (proj1 (restoreBet_after_end unreachable 1 "a" three_entries cats
                  eq_refl)).
Defined.

Lemma created_option_found_witness :
  exists o,
    getBetOption (next_id (map bet_id (bets empty))) "B"
                 (after (createBet cats_or_dogs) empty)
    = (Ok (Some o), after (createBet cats_or_dogs) empty)
    /\ opt_name o = "b"
    /\ opt_description o = "Dogs"
    /\ valid (next_id (map bet_id (bets empty))) "B"
             (after (createBet cats_or_dogs) empty)
       = (Ok true, after (createBet cats_or_dogs) empty).
Proof.
  apply (created_option_found cats_or_dogs empty "B" "b" "Dogs").
  - exact sound_empty.
  - repeat constructor; cbn; intuition discriminate.
  - right. now left.
  - reflexivity.
Defined.

End LifecycleFacts.

(** ** The chat commands *)
Module CommandFacts.
Import JS Bets Scenario Invariants Commands ManagerFacts ManagerMore
       StoreFacts NumberFacts ValueFacts LifecycleFacts.

Section Handlers.

Variable ledger_accepts : list LedgerCall -> LedgerCall -> bool.

(** [enter] does not refuse an amount that is not negative. *)
Lemma enter_amount_accepted (id : Z) (user optionName : string) (z : Z)
      (w : World) :
  0 <= z ->
  fst (enter ledger_accepts id user optionName z w) <> Err InvalidAmount.
Proof.
  intro Hz.
  cbv [enter bind getStatus getBetOption query update call throw ret].
  destruct (find _ (bets w)) as [x|]; [|discriminate].
  destruct (negb _); [discriminate|].
  destruct (find _ (betOptions w)); [|discriminate].
  replace (z <? 0) with false by (symmetry; apply Z.ltb_ge; lia).
  destruct (ledger_accepts (ledger w) _); [|discriminate].
  cbn [set_ledger ledger].
  destruct (ledger_accepts _ _); discriminate.
Qed.

(** X16. The handler of [!bet] never lets the amount guard of [enter]
    fail: it turns away what is not a finite number and what is negative
    itself. When it ends without a failure on a word that is no
    subcommand, the sender has exactly one entry in the bet, of the
    amount given, which is not negative. *)
Theorem bet_enter_checked (user : string) (optionName : option string)
        (florins : jsnum) (b : Bot) :
  fst (bet_enter ledger_accepts user optionName florins b)
  <> Some (Thrown InvalidAmount)
  /\ (fst (bet_enter ledger_accepts user optionName florins b) = None ->
      includes subcommands optionName = false ->
      exists id z e,
        bet b = Some id
        /\ florins = JNum z
        /\ 0 <= z
        /\ entries_of id (toLowerCase user)
             (store (snd (bet_enter ledger_accepts user optionName florins b)))
           = [e]
        /\ ent_amount e = z).
Proof.
  destruct (bet_enter ledger_accepts user optionName florins b)
    as [f b'] eqn:E.
  cbn [fst snd]. unfold bet_enter in E.
  destruct (includes subcommands optionName) eqn:Hsub.
  { injection E as <- <-. split; [discriminate | intros _ H; discriminate H]. }
  destruct (bet b) as [id|] eqn:Hbet.
  2:{ injection E as <- <-. split; [discriminate | intros H; discriminate H]. }
  destruct (missing optionName).
  { injection E as <- <-. split; [discriminate | intros H; discriminate H]. }
  unfold await at 1 in E. cbv [valid bind getBetOption query ret] in E.
  destruct (find _ (betOptions (store b))) as [o|];
    cbv beta iota delta [negb fail] in E.
  2:{ injection E as <- <-. split; [discriminate | intros H; discriminate H]. }
  destruct florins as [z| |negative];
    cbv beta iota delta [isFinite negb orb ltb integer fail] in E.
  2:{ injection E as <- <-. split; [discriminate | intros H; discriminate H]. }
  2:{ injection E as <- <-. split; [discriminate | intros H; discriminate H]. }
  destruct (z <? 0) eqn:Hz; cbv beta iota delta [fail] in E.
  { injection E as <- <-. split; [discriminate | intros H; discriminate H]. }
  apply Z.ltb_ge in Hz.
  unfold await in E. cbn [store] in E.
  pose proof (enter_amount_accepted id user (String_of optionName) z
                                    (store b) Hz) as Hok.
  destruct (enter ledger_accepts id user (String_of optionName) z (store b))
    as [[r|err] w'] eqn:Eenter; cbn [fst] in Hok.
  - unfold done in E. injection E as <- <-.
    split; [discriminate|]. intros _ _.
    apply enter_ok_inv in Eenter
      as (o' & e & _ & _ & _ & Hb & _ & Hu & Ha & _ & ->).
    exists id, z, e. repeat split; try assumption.
    cbn [store]. unfold entries_of. cbn [betEntries].
    rewrite filter_app, filter_negb. cbn [filter app].
    unfold of_user, of_bet.
    now rewrite Hb, Hu, Z.eqb_refl, String.eqb_refl.
  - injection E as <- <-. split; [|intros H; discriminate H].
    intros [= ->]. now apply Hok.
Qed.

End Handlers.

Lemma bet_enter_checked_witness :
  exists id z e,
    Some 1 = Some id
    /\ JNum 70 = JNum z
    /\ 0 <= z
    /\ entries_of id (toLowerCase "Bob")
         (store (snd (bet_enter responsive "Bob" (Some "A") (JNum 70)
                        {| bet := Some 1; store := three_entries;
                           sent := [] |})))
       = [e]
    /\ ent_amount e = z.
Proof.
  exact (proj2 (bet_enter_checked responsive "Bob" (Some "A") (JNum 70)
                  {| bet := Some 1; store := three_entries; sent := [] |})
               eq_refl eq_refl).
Defined.

Lemma restoreBet_finds (id : Z) (w : World) (s : Status) :
  status_of id w = Some s -> s <> Ended ->
  exists id', restoreBet w = (Ok (Some id'), w).
Proof.
  unfold status_of, restoreBet, query. intros Hs Hne.
  destruct (find (fun b => bet_id b =? id) (bets w)) as [x|] eqn:E;
    [|discriminate].
  injection Hs as Hs. apply find_some in E as [Hin _].
  destruct (find_first (fun b => negb (Status_eqb (bet_status b) Ended))
                       (bets w) x Hin) as [y Hy].
  { rewrite Hs. now destruct s. }
  rewrite Hy. now exists (bet_id y).
Qed.

(** X17. A bet that is dropped from the bot stays in the store. [!bet
    end] with a key that names no option fails, but has taken the bet off
    the bot first; [!bet stop] takes it off and announces a refund. Neither
    writes to the store or calls the ledger: the status and the
    reservations stay, and [restoreBet] still finds a bet to pick up. *)
Theorem dropped_bet_stays
        (ledger_accepts : list LedgerCall -> LedgerCall -> bool)
        (optionName : option string) (b : Bot) (id : Z) (s : Status) :
  bet b = Some id ->
  status_of id (store b) = Some s ->
  s <> Ended ->
  (unknown id (String_of optionName) (store b) ->
   bet_end ledger_accepts optionName b
   = (Some (Thrown (UnknownOption (String_of optionName))),
      {| bet := None; store := store b; sent := sent b |}))
  /\ bet_stop b
     = (None, {| bet := None; store := store b; sent := sent b ++ [Stopped] |})
  /\ exists id', restoreBet (store b) = (Ok (Some id'), store b).
Proof.
  intros Hbet Hs Hne. split; [|split].
  - intro Hu. unfold bet_end. rewrite Hbet.
    unfold detach, await at 1. cbn [store bet sent].
    cbv [pool query]. unfold await. cbn [store bet sent].
    pose proof (getBetOption_unknown id _ _ Hu) as Hnone.
    unfold end_, bind at 1. now rewrite Hnone.
  - reflexivity.
  - exact (restoreBet_finds id (store b) s Hs Hne).
Qed.

(** X18. [!bet close] looks at one thing only, whether the bet is closed.
    On a closed bet it fails and changes nothing; on any other bet the bot
    holds, an ended one included, it stores the status closed and
    announces the pool, and the entries stay as they are. *)
Theorem bet_close_effect (b : Bot) (id : Z) (s : Status) :
  bet b = Some id ->
  status_of id (store b) = Some s ->
  if Status_eqb s Closed
  then bet_close b
       = (Some NotCurrentlyOpen,
          {| bet := bet b; store := store b; sent := sent b |})
  else
    exists total,
      pool id (store b) = (Ok total, store b)
      /\ bet_close b
         = (None,
            {| bet := bet b;
               store := after (close id) (store b);
               sent := sent b ++ [BetsClosed total] |})
      /\ status_of id (after (close id) (store b)) = Some Closed
      /\ betEntries (after (close id) (store b)) = betEntries (store b).
Proof.
  destruct b as [bet0 w sent0]. cbn [bet store sent].
  intros -> Hs.
  assert (Hclosed : closed id w = (Ok (Status_eqb s Closed), w)).
  { unfold closed, bind. now rewrite (getStatus_status_of id w s Hs). }
  destruct s; cbn [Status_eqb] in *.
  - eexists. split; [reflexivity|]. split; [|split; [|reflexivity]].
    + unfold bet_close. cbn [bet]. unfold await at 1. cbn [store].
      rewrite Hclosed. reflexivity.
    + exact (status_of_close id w Open Hs).
  - unfold bet_close. cbn [bet]. unfold await at 1. cbn [store].
    rewrite Hclosed. reflexivity.
  - eexists. split; [reflexivity|]. split; [|split; [|reflexivity]].
    + unfold bet_close. cbn [bet]. unfold await at 1. cbn [store].
      rewrite Hclosed. reflexivity.
    + exact (status_of_close id w Ended Hs).
Qed.

Section Options.

Variable id : Z.

Lemma showOptions_closed (w : World) (opts : list BetOption)
      (numbers : list number) :
  Forall2 (fun o x => optionValue id (opt_name o) w = (Ok x, w))
          opts numbers ->
  forall (k : list (string * string * option number) -> Handler)
         (bet0 : option Z) (sent0 : list Message),
    showOptions id true opts k {| bet := bet0; store := w; sent := sent0 |}
    = k (map (fun ox => (opt_name (fst ox), opt_description (fst ox),
                         Some (snd ox)))
             (combine opts numbers))
        {| bet := bet0; store := w; sent := sent0 |}.
Proof.
  induction 1 as [|o x opts numbers Hx _ IH]; intros k bet0 sent0.
  - reflexivity.
  - cbn [showOptions combine map fst snd].
    unfold showOption. cbn [negb]. unfold await at 1. cbn [store].
    rewrite Hx. cbn [bet sent]. now rewrite IH.
Qed.

Lemma Forall2_length {A B} (R : A -> B -> Prop) (l : list A) (l' : list B) :
  Forall2 R l l' -> List.length l = List.length l'.
Proof. induction 1; cbn [List.length]; congruence. Qed.

Lemma values_shown (opts : list BetOption) (numbers : list number) :
  List.length opts = List.length numbers ->
  map (fun x : string * string * option number => snd x)
      (map (fun ox : BetOption * number =>
              (opt_name (fst ox), opt_description (fst ox), Some (snd ox)))
           (combine opts numbers))
  = map Some numbers.
Proof.
  revert numbers; induction opts as [|o opts IH]; intros [|x numbers] Hlen;
    try discriminate Hlen; [reflexivity|].
  cbn [combine map fst snd].
  rewrite IH; [reflexivity|]. now injection Hlen.
Qed.

Lemma names_shown (opts : list BetOption) (numbers : list number) :
  List.length opts = List.length numbers ->
  map (fun x : string * string * option number => (fst (fst x), snd (fst x)))
      (map (fun ox : BetOption * number =>
              (opt_name (fst ox), opt_description (fst ox), Some (snd ox)))
           (combine opts numbers))
  = map (fun o => (opt_name o, opt_description o)) opts.
Proof.
  revert numbers; induction opts as [|o opts IH]; intros [|x numbers] Hlen;
    try discriminate Hlen; [reflexivity|].
  cbn [combine map fst snd].
  rewrite IH; [reflexivity|]. now injection Hlen.
Qed.

(** X19. On a closed bet in a sound store, whose stakes add up to less
    than 2^53, [!bet options] lists every option of the bet once, with its
    name and description and the sum of the stakes on it, and the values
    it shows add up to the pool that [!bet close] announced. *)
Theorem bet_options_closed (b : Bot) :
  bet b = Some id ->
  sound (store b) ->
  status_of id (store b) = Some Closed ->
  stakes (filter (of_bet id) (betEntries (store b))) < 2 ^ 53 ->
  exists shown opts numbers values total,
    bet_options b
    = (None, {| bet := bet b; store := store b;
                sent := sent b ++ [BettingOptions shown] |})
    /\ getBetOptions id (store b) = (Ok opts, store b)
    /\ map (fun x => (fst (fst x), snd (fst x))) shown
       = map (fun o => (opt_name o, opt_description o)) opts
    /\ map (fun x => snd x) shown = map Some numbers
    /\ Forall2 is_integer numbers values
    /\ values
       = map (fun o => stakes (filter (of_option id (opt_id o))
                                      (betEntries (store b)))) opts
    /\ pool id (store b) = (Ok total, store b)
    /\ is_integer (to_number total) (fold_right Z.add 0 values).
Proof.
  destruct b as [bet0 w sent0]. cbn [bet store sent].
  intros -> Hsound Hs Hbound.
  destruct (option_values_sum id w Hsound Hbound)
    as (Hopts & Hnumbers & Hvalues & _ & Hpool).
  pose proof (Forall2_length _ _ _ Hnumbers) as Hlen.
  do 5 eexists.
  split; [|split; [exact Hopts|split; [|split; [|split; [exact Hvalues|]]]]].
  - unfold bet_options. cbn [bet].
    unfold await at 1. cbn [store]. unfold closed, bind at 1.
    rewrite (getStatus_status_of id w Closed Hs).
    unfold ret. cbn [Status_eqb].
    unfold await at 1. cbn [store]. rewrite Hopts. cbn [bet sent].
    rewrite (showOptions_closed w _ _ Hnumbers).
    reflexivity.
  - now apply names_shown.
  - now apply values_shown.
  - split; [reflexivity|]. split; [reflexivity | exact Hpool].
Qed.

End Options.

Lemma dropped_bet_stays_witness :
  bet_end responsive (Some "z")
          {| bet := Some 1; store := three_entries; sent := [] |}
  = (Some (Thrown (UnknownOption "z")),
     {| bet := None; store := three_entries; sent := [] |})
  /\ exists id', restoreBet three_entries = (Ok (Some id'), three_entries).
Proof.
  destruct (dropped_bet_stays responsive (Some "z")
              {| bet := Some 1; store := three_entries; sent := [] |}
              1 Open eq_refl eq_refl ltac:(discriminate))
    as (Hend & _ & Hrestore).
  split; [exact (Hend unknown_z) | exact Hrestore].
Defined.

Lemma bet_close_effect_witness :
  (exists total,
      bet_close {| bet := Some 1; store := three_entries; sent := [] |}
      = (None,
         {| bet := Some 1;
            store := after (close 1) three_entries;
            sent := [BetsClosed total] |}))
  /\ bet_close {| bet := Some 1; store := three_entries_closed; sent := [] |}
     = (Some NotCurrentlyOpen,
        {| bet := Some 1; store := three_entries_closed; sent := [] |}).
Proof.
  split.
  - destruct (bet_close_effect
                {| bet := Some 1; store := three_entries; sent := [] |}
                1 Open eq_refl eq_refl) as (total & _ & Hclose & _).
    exists total. exact Hclose.
  - exact (bet_close_effect
             {| bet := Some 1; store := three_entries_closed; sent := [] |}
             1 Closed eq_refl eq_refl).
Defined.

Lemma sound_three_entries_closed : sound three_entries_closed.
Proof. apply sound_close, sound_three_entries. Defined.

Lemma bet_options_closed_witness :
  exists shown opts numbers values total,
    bet_options {| bet := Some 1; store := three_entries_closed; sent := [] |}
    = (None, {| bet := Some 1; store := three_entries_closed;
                sent := [BettingOptions shown] |})
    /\ getBetOptions 1 three_entries_closed = (Ok opts, three_entries_closed)
    /\ map (fun x => (fst (fst x), snd (fst x))) shown
       = [("a", "Cats"); ("b", "Dogs")]
    /\ map (fun x => snd x) shown = map Some numbers
    /\ Forall2 is_integer numbers values
    /\ values = [150; 200]
    /\ pool 1 three_entries_closed = (Ok total, three_entries_closed)
    /\ is_integer (to_number total) (fold_right Z.add 0 values).
Proof.
  destruct (bet_options_closed 1
              {| bet := Some 1; store := three_entries_closed; sent := [] |}
              eq_refl sound_three_entries_closed eq_refl eq_refl)
    as (shown & opts & numbers & values & total & Hrun & Hopts & Hnames
        & Hshown & Hvalues & Hmap & Hpool & Htotal).
  exists shown, opts, numbers, values, total.
  split; [exact Hrun|]. split; [exact Hopts|].
  split; [|split; [exact Hshown|split; [exact Hvalues|split;
    [|split; [exact Hpool | exact Htotal]]]]].
  - rewrite Hnames. injection Hopts as <-. reflexivity.
  - rewrite Hmap. injection Hopts as <-. reflexivity.
Defined.

End CommandFacts.

(** ** The pay-out in binary64 *)
Module PayoutFacts.
Import JS Bets Scenario Invariants ManagerFacts NumberFacts.

(** A number divided by itself is one. *)
Lemma div_self (m : positive) (e : Z) :
  digits2_pos m = 53%positive ->
  div (S754_finite false m e) (S754_finite false m e)
  = S754_finite false (2 ^ 52) (-52).
Proof.
  intro Hd. unfold div, SFdiv, SFdiv_core_binary.
  cbn [Zdigits2 xorb]. rewrite Hd, !Z.sub_diag.
  change (Z.min (fexp prec emax 0) 0) with (-53).
  change (0 - -53) with 53.
  rewrite Z.shiftl_mul_pow2 by lia.
  assert (Hdiv : Z.div_eucl (Z.pos m * 2 ^ 53) (Z.pos m) = (2 ^ 53, 0)).
  { pose proof (Z.div_mul (2 ^ 53) (Z.pos m) ltac:(lia)) as Hq.
    pose proof (Z.mod_mul (2 ^ 53) (Z.pos m) ltac:(lia)) as Hr.
    rewrite Z.mul_comm. unfold Z.div, Z.modulo in Hq, Hr.
    destruct (Z.div_eucl (2 ^ 53 * Z.pos m) (Z.pos m)) as [q r].
    now subst. }
  rewrite Hdiv.
  assert (Hloc : new_location (Z.pos m) 0 = loc_Exact).
  { unfold new_location, new_location_even, new_location_odd.
    now destruct (Z.even (Z.pos m)). }
  rewrite Hloc. reflexivity.
Qed.

(** One times a number is the number. *)
Lemma mul_one (m : positive) (e : Z) :
  digits2_pos m = 53%positive -> -52 <= e <= 0 ->
  mul (S754_finite false (2 ^ 52) (-52)) (S754_finite false m e)
  = S754_finite false m e.
Proof.
  intros Hd He. unfold mul, SFmul. cbn [xorb].
  change (2 ^ 52 * m)%positive with (Pos.iter xO m 52).
  unfold binary_round_aux, shr_fexp.
  cbn [Zdigits2]. rewrite digits2_pos_iter, Hd.
  replace (fexp prec emax (Z.pos (53 + 52) + (-52 + e)) - (-52 + e)) with 52
    by (unfold fexp, emin, prec, emax; lia).
  cbn [shr shr_record_of_loc].
  change (iter_pos shr_1 52
            {| shr_m := Z.pos (Pos.iter xO m 52);
               shr_r := false; shr_s := false |})
    with {| shr_m := Z.pos m; shr_r := false; shr_s := false |}.
  cbn [shr_m loc_of_shr_record round_nearest_even Zdigits2]. rewrite Hd.
  replace (-52 + e + 52) with e by lia.
  replace (fexp prec emax (53 + e) - e) with 0
    by (unfold fexp, emin, prec, emax; lia).
  cbn [shr shr_record_of_loc shr_m].
  replace (e <=? emax - prec) with true; [reflexivity|].
  symmetry. apply Z.leb_le. unfold emax, prec. lia.
Qed.

Lemma ceil_integer (m : positive) (e v : Z) :
  e <= 0 -> Z.pos m = v * 2 ^ (- e) ->
  Math_ceil (S754_finite false m e) = JNum v.
Proof.
  intros He Hm. unfold Math_ceil.
  destruct (0 <=? e) eqn:E.
  - apply Z.leb_le in E. assert (e = 0) as -> by lia.
    cbn in Hm. f_equal. lia.
  - f_equal. rewrite Hm, <- Z.mul_opp_l, Z.div_mul; [lia|].
    apply Z.pow_nonzero; lia.
Qed.

(** The stake that is the whole winning total is paid the whole pool. *)
Lemma payout_whole (stake : Z) (total : option Z) :
  0 < stake < 2 ^ 53 ->
  0 < or_zero total < 2 ^ 53 ->
  payout stake (of_Z stake) (received total) = JNum (or_zero total).
Proof.
  intros Hs Ht. unfold payout. rewrite to_number_received.
  destruct (of_Z_small stake Hs) as (m & e & -> & Hd & He & _).
  destruct (of_Z_small (or_zero total) Ht) as (m' & e' & -> & Hd' & He' & Hm').
  rewrite div_self by exact Hd.
  rewrite mul_one by assumption.
  apply ceil_integer; [lia | exact Hm'].
Qed.

(** The sum of one stake is the stake. *)
Lemma sum_one_stake (stake : Z) :
  0 < stake < 2 ^ 53 -> sum (of_Z 0) (of_Z stake) = of_Z stake.
Proof.
  intro Hs. now destruct (of_Z_small stake Hs) as (m & e & -> & _).
Qed.

(** X20. A lone winner takes the pool, to the florin: when one entry is
    on the winning option, with a positive stake, and the stake and the
    pool are below 2^53, [end] credits that user exactly the pool; the
    binary64 quotient and product are exact here. *)
Theorem lone_winner_takes_pool
        (ledger_accepts : list LedgerCall -> LedgerCall -> bool)
        (betId : Z) (optionName : string) (w : World) (o : BetOption)
        (e : BetEntry) :
  up ledger_accepts ->
  getBetOption betId optionName w = (Ok (Some o), w) ->
  filter (of_option betId (opt_id o)) (betEntries w) = [e] ->
  0 < ent_amount e < 2 ^ 53 ->
  0 < stakes (filter (of_bet betId) (betEntries w)) < 2 ^ 53 ->
  exists debits w',
    end_ ledger_accepts betId optionName w = (Ok [e], w')
    /\ ledger w'
       = ledger w
         ++ [Transactions debits;
             Transactions
               [{| username := ent_user e;
                   amount := JNum (stakes (filter (of_bet betId)
                                                  (betEntries w)));
                   description :=
                     ("bet payout from option " ++ opt_name o)%string |}];
             ClearReservations "bet"].
Proof.
  intros Hup Ho Hone Hstake Hpool.
  rewrite (end_runs ledger_accepts betId optionName w o Hup Ho).
  rewrite Hone. do 2 eexists. split; [reflexivity|].
  cbn [ledger map fold_left]. rewrite sum_one_stake by exact Hstake.
  unfold credit. cbn [fst snd].
  rewrite payout_whole.
  - rewrite or_zero_sql_sum. reflexivity.
  - exact Hstake.
  - rewrite or_zero_sql_sum. exact Hpool.
Qed.

Lemma lone_winner_takes_pool_witness :
  exists debits w',
    end_ responsive 1 "b" three_entries
    = (Ok [{| ent_id := 2; ent_betId := 1; ent_optionId := 2;
              ent_user := "bob"; ent_amount := 200 |}], w')
    /\ ledger w'
       = ledger three_entries
         ++ [Transactions debits;
             Transactions
               [{| username := "bob";
                   amount := JNum 350;
                   description := "bet payout from option b" |}];
             ClearReservations "bet"].
Proof.
  exact (lone_winner_takes_pool responsive 1 "b" three_entries
           {| opt_id := 2; opt_betId := 1; opt_name := "b";
              opt_description := "Dogs" |}
           {| ent_id := 2; ent_betId := 1; ent_optionId := 2;
              ent_user := "bob"; ent_amount := 200 |}
           responsive_up eq_refl eq_refl
           ltac:(cbn; lia) ltac:(cbn; lia)).
Defined.

Lemma payout_zero_total (total : option number) :
  payout 0 (of_Z 0) total = JNaN.
Proof. unfold payout. now destruct (to_number total). Qed.

(** Stakes of 0 add up to 0. *)
Lemma sum_zero_stakes (l : list Z) :
  Forall (fun x => x = 0) l ->
  fold_left sum (map of_Z l) (of_Z 0) = of_Z 0.
Proof.
  induction 1 as [|x l -> _ IH]; [reflexivity|].
  cbn [map fold_left]. exact IH.
Qed.

Lemma all_zero (l : list Z) :
  Forall (fun x => 0 <= x) l -> fold_right Z.add 0 l = 0 ->
  Forall (fun x => x = 0) l.
Proof.
  induction 1 as [|x l Hx Hl IH]; cbn [fold_right]; intro Hsum;
    [constructor|].
  assert (0 <= fold_right Z.add 0 l).
  { clear IH Hsum. induction Hl; cbn [fold_right]; lia. }
  constructor; [lia | apply IH; lia].
Qed.

(** X21. When the stakes on the winning option, none of them negative,
    add up to 0, every credit of [end] is [NaN]: one per entry on that
    option, each the ceiling of 0 / 0 times the pool. *)
Theorem zero_total_credits
        (ledger_accepts : list LedgerCall -> LedgerCall -> bool)
        (betId : Z) (optionName : string) (w : World) (o : BetOption) :
  up ledger_accepts ->
  stakes_nonneg w ->
  getBetOption betId optionName w = (Ok (Some o), w) ->
  stakes (filter (of_option betId (opt_id o)) (betEntries w)) = 0 ->
  exists debits w',
    end_ ledger_accepts betId optionName w
    = (Ok (filter (of_option betId (opt_id o)) (betEntries w)), w')
    /\ ledger w'
       = ledger w
         ++ [Transactions debits;
             Transactions
               (map (fun e =>
                       {| username := ent_user e;
                          amount := JNaN;
                          description :=
                            ("bet payout from option " ++ opt_name o)%string
                       |})
                    (filter (of_option betId (opt_id o)) (betEntries w)));
             ClearReservations "bet"].
Proof.
  intros Hup Hnonneg Ho Hzero.
  rewrite (end_runs ledger_accepts betId optionName w o Hup Ho).
  do 2 eexists. split; [reflexivity|].
  assert (Hall : Forall (fun x => x = 0)
                        (map ent_amount
                             (filter (of_option betId (opt_id o))
                                     (betEntries w)))).
  { apply all_zero; [|exact Hzero].
    apply Forall_map. apply Forall_forall. intros x Hx.
    apply filter_In in Hx as [Hx _].
    exact (proj1 (Forall_forall _ _) Hnonneg x Hx). }
  cbn [ledger].
  rewrite <- (map_map ent_amount of_Z), (sum_zero_stakes _ Hall).
  match goal with
  | |- context [Transactions (map (credit o) (map ?f ?l))] =>
      rewrite (map_map f (credit o) l)
  end.
  do 4 f_equal. apply map_ext_in. intros e He.
  unfold credit. cbn [fst snd]. f_equal.
  assert (Ha : ent_amount e = 0).
  { apply (proj1 (Forall_forall _ _) Hall). now apply in_map. }
  rewrite Ha. apply payout_zero_total.
Qed.

Lemma zero_total_credits_witness :
  exists debits w',
    end_ responsive 1 "a" zero_stake
    = (Ok (filter (of_option 1 (opt_id cats)) (betEntries zero_stake)), w')
    /\ ledger w'
       = ledger zero_stake
         ++ [Transactions debits;
             Transactions
               (map (fun e =>
                       {| username := ent_user e;
                          amount := JNaN;
                          description :=
                            ("bet payout from option " ++ opt_name cats)%string
                       |})
                    (filter (of_option 1 (opt_id cats))
                            (betEntries zero_stake)));
             ClearReservations "bet"].
Proof.
  apply (zero_total_credits responsive 1 "a" zero_stake cats responsive_up).
  - repeat constructor; cbn; lia.
  - reflexivity.
  - reflexivity.
Defined.

End PayoutFacts.
